(** * Playfair cipher (playfair_cipher.py): embedding and verified properties

    The Python module is embedded function by function.  A Python [str] is a
    list of Unicode code points; a list of strings is a list of such lists.
    Exceptions are carried by a small error monad, and the one [while] loop
    of the module runs on fuel, with the bound shown sufficient. *)

From Stdlib Require Import String Ascii.
From stdpp Require Import gmap list list_monad.

Set Warnings "-clear-no-such-hyp".

(** ** Python values *)

(** A character is its code point ([ord]); a [str] is a sequence of them. *)
Abbreviation char := N (only parsing).
Abbreviation str := (list N) (only parsing).

Definition ord (a : ascii) : char := N_of_ascii a.

(** The code points of an ASCII literal. *)
Definition py (s : string) : str := ord <$> list_ascii_of_string s.

(** ** Exceptions *)

Inductive exn := ValueError | IndexError.

(** Outcome of a call: a value, a raised exception, or a loop that did not
    finish within its fuel. *)
Inductive result (A : Type) :=
  | Ok (a : A)
  | Raise (e : exn)
  | OutOfFuel.
Arguments Ok {A} a.
Arguments Raise {A} e.
Arguments OutOfFuel {A}.

Global Instance result_ret : MRet result := λ A a, Ok a.
Global Instance result_bind : MBind result := λ A B f m,
  match m with
  | Ok a => f a
  | Raise e => Raise e
  | OutOfFuel => OutOfFuel
  end.

Global Instance result_fmap : FMap result := λ A B f m,
  match m with
  | Ok a => Ok (f a)
  | Raise e => Raise e
  | OutOfFuel => OutOfFuel
  end.

(** [l[i]] for a non-negative index. *)
Definition index {A} (l : list A) (i : nat) : result A :=
  match l !! i with
  | Some x => Ok x
  | None => Raise IndexError
  end.

(** [l[i:j]] for non-negative bounds. *)
Definition slice {A} (l : list A) (i j : nat) : list A :=
  take (j - i) (drop i l).

(** ** The character database

    [str.isalpha] and [str.upper] are builtins that consult the Unicode
    character database.  [upper] maps one character to one or more
    characters.  The module is embedded over an arbitrary database; the
    general theorems hold for every one. *)
Class UnicodeData := {
  isalpha : char → bool;
  upper : char → str;
}.

(** The database on Basic Latin and Latin-1 Supplement (code points below
    256) and on the two characters their upper-case forms reach outside
    that range (U+0178 and U+039C).  Used for the concrete runs only. *)
Definition latin1_isalpha (c : char) : bool :=
  ((65 <=? c) && (c <=? 90) || (97 <=? c) && (c <=? 122)
   || (c =? 170) || (c =? 181) || (c =? 186)
   || (192 <=? c) && (c <=? 214) || (216 <=? c) && (c <=? 246)
   || (248 <=? c) && (c <=? 255) || (c =? 376) || (c =? 924))%N.

Definition latin1_upper (c : char) : str :=
  (if (97 <=? c) && (c <=? 122) then [c - 32]
   else if c =? 181 then [924]
   else if c =? 223 then [83; 83]
   else if (224 <=? c) && (c <=? 246) || (248 <=? c) && (c <=? 254)
        then [c - 32]
   else if c =? 255 then [376]
   else [c])%N.

Global Instance latin1 : UnicodeData :=
  {| isalpha := latin1_isalpha; upper := latin1_upper |}.

(** ** The 25-letter alphabet *)

(** [[chr(i) for i in range(ord('A'), ord('Z') + 1) if chr(i) != 'J']] *)
Definition alphabet : str :=
  filter (λ c, c ≠ ord "J") (N.of_nat <$> seq 65 26).

(** The filler chosen after letter [a]: ['Z' if a == 'X' else 'X']. *)
Definition filler (a : char) : char :=
  if decide (a = ord "X") then ord "Z" else ord "X".

(** [s.replace(old, new)] for one-character [old] and [new]. *)
Definition replace (old new : char) (s : str) : str :=
  (λ c, if decide (c = old) then new else c) <$> s.

Section playfair.
Context {U : UnicodeData}.

(** [s.upper()] *)
Definition str_upper (s : str) : str := s ≫= upper.

(** *** create_grid *)

(** One turn of the loop that keeps the first occurrence of each letter. *)
Definition unique_step (st : gset N * list N) (c : char)
    : gset N * list N :=
  let '(seen, unique_keyword) := st in
  if decide (c ∈ seen) then st
  else ({[c]} ∪ seen, unique_keyword ++ [c]).

(** Steps 1 and 2 of [create_grid]: the normalised keyword, then the loop
    over it, giving [(seen, unique_keyword)]. *)
Definition normalize_keyword (keyword : str) : str :=
  let keyword := str_upper keyword in
  let keyword := filter (λ c, isalpha c) keyword in
  replace (ord "J") (ord "I") keyword.

Definition unique_letters (keyword : str) : gset N * list N :=
  foldl unique_step (∅, []) keyword.

(** Steps 3 and 4: [unique_keyword + [c for c in alphabet if c not in seen]] *)
Definition grid_letters (keyword : str) : str :=
  let '(seen, unique_keyword) := unique_letters (normalize_keyword keyword) in
  unique_keyword ++ filter (λ c, c ∉ seen) alphabet.

Definition create_grid (keyword : str) : result (list (list char)) :=
  if bool_decide (keyword = []) || negb (existsb isalpha keyword)
  then Raise ValueError
  else
    let grid_letters := grid_letters keyword in
    (* [range(0, 25, 5)] *)
    Ok ((λ i, slice grid_letters i (i + 5)) <$> [0; 5; 10; 15; 20]).

(** *** prepare_message *)

(** Step 1: the cleaned text. *)
Definition clean (message_text : str) : str :=
  let cleaned := filter (λ ch, isalpha ch) (str_upper message_text) in
  replace (ord "J") (ord "I") cleaned.

(** The body of the [while] loop of step 2, from cursor [i] and buffer
    [prepared_chars] to the next cursor and buffer. *)
Definition scan_body (cleaned : str) (i : nat) (prepared_chars : list char)
    : result (nat * list char) :=
  a ← index cleaned i;
  b ← (if bool_decide (i + 1 < length cleaned)
       then Some <$> index cleaned (i + 1) else Ok None);
  match b with
  | None => Ok (i + 1, prepared_chars ++ [a])
  | Some b =>
      if decide (a = b) then
        Ok (i + 1, prepared_chars ++ [a; filler a])
      else
        Ok (i + 2, prepared_chars ++ [a; b])
  end.

(** [while i < len(cleaned): ...], at most [fuel] turns. *)
Fixpoint scan_loop (fuel : nat) (cleaned : str) (i : nat)
    (prepared_chars : list char) : result (list char) :=
  if bool_decide (i < length cleaned) then
    match fuel with
    | 0 => OutOfFuel
    | S fuel =>
        '(i, prepared_chars) ← scan_body cleaned i prepared_chars;
        scan_loop fuel cleaned i prepared_chars
    end
  else Ok prepared_chars.

(** Step 3: pad an odd-length buffer. *)
Definition pad (prepared_chars : list char) : result (list char) :=
  if decide (length prepared_chars mod 2 = 1) then
    (* [prepared_chars[-1]] *)
    last ← index prepared_chars (length prepared_chars - 1);
    Ok (prepared_chars ++ [filler last])
  else Ok prepared_chars.

(** Step 4: [[''.join(p[i:i + 2]) for i in range(0, len(p), 2)]], then the
    digraphs of length two. *)
Definition digraphs_of (prepared_chars : list char) : list str :=
  let digraphs :=
    (λ k, slice prepared_chars (2 * k) (2 * k + 2))
      <$> seq 0 ((length prepared_chars + 1) / 2) in
  filter (λ dg, length dg = 2) digraphs.

(** The argument is a [str], so the [isinstance] guard is passed. *)
Definition prepare_message (message_text : str) : result (list str) :=
  let cleaned := clean message_text in
  if bool_decide (cleaned = []) then Ok []
  else
    prepared_chars ← scan_loop (length cleaned) cleaned 0 [];
    prepared_chars ← pad prepared_chars;
    Ok (digraphs_of prepared_chars).
End playfair.

(** *** find_coordinates and encrypt_pair *)

(** [grid[r][c]] *)
Definition cell (grid : list (list char)) (r c : nat) : result char :=
  row ← index grid r; index row c.

(** The cells visited by [for r in range(5): for c in range(5)], in order. *)
Definition cells : list (nat * nat) :=
  r ← seq 0 5; c ← seq 0 5; [(r, c)].

Fixpoint find_from (grid : list (list char)) (ch : char)
    (todo : list (nat * nat)) : result (nat * nat) :=
  match todo with
  | [] => Raise ValueError
  | (r, c) :: todo =>
      x ← cell grid r c;
      if decide (x = ch) then Ok (r, c) else find_from grid ch todo
  end.

Definition find_coordinates (grid : list (list char)) (ch : char)
    : result (nat * nat) :=
  find_from grid ch cells.

(** Step 2 of [encrypt_pair]: the new coordinates [(new_r1, new_c1)] and
    [(new_r2, new_c2)]. *)
Definition new_coordinates (p1 p2 : nat * nat) : (nat * nat) * (nat * nat) :=
  let '(r1, c1) := p1 in
  let '(r2, c2) := p2 in
  if decide (r1 = r2) then ((r1, (c1 + 1) mod 5), (r2, (c2 + 1) mod 5))
  else if decide (c1 = c2) then (((r1 + 1) mod 5, c1), ((r2 + 1) mod 5, c2))
  else ((r1, c2), (r2, c1)).

Definition encrypt_pair (grid : list (list char)) (digraph : str)
    : result str :=
  char1 ← index digraph 0;
  char2 ← index digraph 1;
  p1 ← find_coordinates grid char1;
  p2 ← find_coordinates grid char2;
  let '((new_r1, new_c1), (new_r2, new_c2)) := new_coordinates p1 p2 in
  encrypted_char1 ← cell grid new_r1 new_c1;
  encrypted_char2 ← cell grid new_r2 new_c2;
  Ok [encrypted_char1; encrypted_char2].

(** *** playfair_encrypt *)

Definition playfair_encrypt {U : UnicodeData} (keyword message_text : str)
    : result str :=
  grid ← create_grid keyword;
  digraphs ← prepare_message message_text;
  if bool_decide (digraphs = []) then Ok []
  else
    ciphertext_digraphs ← mapM (encrypt_pair grid) digraphs;
    Ok (mjoin ciphertext_digraphs).

(** ** Closed forms used in the proofs *)

(** The buffer the [while] loop of [prepare_message] builds, by recursion on
    the text still to scan. *)
Fixpoint separate (cleaned : str) : list char :=
  match cleaned with
  | [] => []
  | a :: rest =>
      match rest with
      | [] => [a]
      | b :: rest' =>
          if decide (a = b) then a :: filler a :: separate rest
          else a :: b :: separate rest'
      end
  end.

(** The digraphs [prepare_message] returns, by the same recursion. *)
Fixpoint pair_up (cleaned : str) : list str :=
  match cleaned with
  | [] => []
  | a :: rest =>
      match rest with
      | [] => [[a; filler a]]
      | b :: rest' =>
          if decide (a = b) then [a; filler a] :: pair_up rest
          else [a; b] :: pair_up rest'
      end
  end.

(** The letters of a text with later repeats dropped: each letter stays at
    its first occurrence. *)
Fixpoint first_occurrences (text : str) : list char :=
  match text with
  | [] => []
  | c :: text => c :: filter (λ d, d ≠ c) (first_occurrences text)
  end.

(** The grid of keyword MONARCHY, as the unit tests write it. *)
Definition grid_monarchy : list (list char) :=
  py <$> ["MONAR"; "CHYBD"; "EFGIK"; "LPQST"; "UVWXZ"]%string.

(** A 5 by 5 grid of 25 distinct letters. *)
Definition grid25 (grid : list (list char)) : Prop :=
  length grid = 5 ∧ Forall (λ row, length row = 5) grid ∧ NoDup (mjoin grid).

(** The letters [A]..[Z]. *)
Definition is_AZ (c : char) : Prop := (65 ≤ c ≤ 90)%N.

(** A grid of five rows of five cells, whatever the cells hold. *)
Definition grid5x5 (grid : list (list char)) : Prop :=
  length grid = 5 ∧ Forall (λ row, length row = 5) grid.

(** Cell [(r', c')] is visited before cell [(r, c)] by the two loops of
    [find_coordinates]. *)
Definition scanned_before (r' c' r c : nat) : Prop :=
  r' < r ∨ (r' = r ∧ c' < c).

(** [encrypt_pair] applied [n] times in a row. *)
Fixpoint encrypt_pair_times (n : nat) (grid : list (list char))
    (digraph : str) : result str :=
  match n with
  | 0 => Ok digraph
  | S n => digraph ← encrypt_pair_times n grid digraph; encrypt_pair grid digraph
  end.

(** Step 2 of [encrypt_pair] on a pair of coordinates. *)
Definition shift (pq : (nat * nat) * (nat * nat)) : (nat * nat) * (nat * nat) :=
  new_coordinates pq.1 pq.2.

(** A character database under which the 25 letters of the alphabet are
    alphabetic and are their own upper-case form. *)
Definition capitals_fixed (U : UnicodeData) : Prop :=
  ∀ c, c ∈ alphabet → isalpha c = true ∧ upper c = [c].

(** No letter of the text equals the letter after it. *)
Definition no_repeat (text : str) : Prop :=
  ∀ i a, text !! i = Some a → text !! (i + 1) ≠ Some a.

(** * Properties *)

(** ** The error monad *)

Lemma bind_Ok {A B} (f : A → result B) (a : A) : Ok a ≫= f = f a.
Proof. reflexivity. Qed.

Lemma bind_Ok_inv {A B} (f : A → result B) (m : result A) (b : B) :
  m ≫= f = Ok b → ∃ a, m = Ok a ∧ f a = Ok b.
Proof. destruct m as [a| |]; [eauto|discriminate..]. Qed.

Lemma index_Ok {A} (l : list A) (i : nat) (x : A) :
  index l i = Ok x ↔ l !! i = Some x.
Proof. unfold index. destruct (l !! i); naive_solver. Qed.

Lemma index_lookup {A} (l : list A) (i : nat) (x : A) :
  l !! i = Some x → index l i = Ok x.
Proof. apply index_Ok. Qed.

(** ** The scan of [prepare_message] *)

Section scan.
Context `{UnicodeData}.
Implicit Types (cleaned prepared : list N) (a b : N) (i fuel : nat).

(** The three cases of the loop body. *)
Lemma scan_body_last cleaned i a prepared :
  cleaned !! i = Some a → cleaned !! (i + 1) = None →
  scan_body cleaned i prepared = Ok (i + 1, prepared ++ [a]).
Proof.
  intros Ha Hb. unfold scan_body. rewrite (index_lookup _ _ _ Ha), bind_Ok.
  apply lookup_ge_None in Hb. rewrite bool_decide_eq_false_2 by lia. done.
Qed.

Lemma scan_body_repeat cleaned i a prepared :
  cleaned !! i = Some a → cleaned !! (i + 1) = Some a →
  scan_body cleaned i prepared = Ok (i + 1, prepared ++ [a; filler a]).
Proof.
  intros Ha Hb. unfold scan_body. rewrite (index_lookup _ _ _ Ha), bind_Ok.
  rewrite bool_decide_eq_true_2 by eauto using lookup_lt_Some.
  rewrite (index_lookup _ _ _ Hb). cbn. by rewrite decide_True.
Qed.

Lemma scan_body_pair cleaned i a b prepared :
  cleaned !! i = Some a → cleaned !! (i + 1) = Some b → a ≠ b →
  scan_body cleaned i prepared = Ok (i + 2, prepared ++ [a; b]).
Proof.
  intros Ha Hb Hab. unfold scan_body. rewrite (index_lookup _ _ _ Ha), bind_Ok.
  rewrite bool_decide_eq_true_2 by eauto using lookup_lt_Some.
  rewrite (index_lookup _ _ _ Hb). cbn. by rewrite decide_False.
Qed.

(** One turn of the loop, when the cursor is inside the text. *)
Lemma scan_loop_turn fuel cleaned i prepared i' prepared' :
  i < length cleaned →
  scan_body cleaned i prepared = Ok (i', prepared') →
  scan_loop (S fuel) cleaned i prepared = scan_loop fuel cleaned i' prepared'.
Proof.
  intros Hi Hbody. cbn [scan_loop].
  rewrite bool_decide_eq_true_2 by done. by rewrite Hbody.
Qed.

Lemma scan_loop_exit fuel cleaned i prepared :
  length cleaned ≤ i → scan_loop fuel cleaned i prepared = Ok prepared.
Proof.
  intros Hi. destruct fuel; cbn [scan_loop];
    by rewrite bool_decide_eq_false_2 by lia.
Qed.

(** The loop finishes within [length cleaned - i] turns, and what it adds
    to the buffer is [separate] of the text from the cursor on. *)
Lemma scan_loop_separate fuel cleaned i prepared :
  length cleaned - i ≤ fuel →
  scan_loop fuel cleaned i prepared = Ok (prepared ++ separate (drop i cleaned)).
Proof.
  revert i prepared. induction fuel as [|fuel IH]; intros i prepared Hfuel.
  { rewrite scan_loop_exit, drop_ge, app_nil_r by lia. done. }
  destruct (decide (i < length cleaned)) as [Hi|Hi].
  2: { rewrite scan_loop_exit, drop_ge, app_nil_r by lia. done. }
  destruct (lookup_lt_is_Some_2 _ _ Hi) as [a Ha].
  rewrite (drop_S _ _ _ Ha).
  destruct (cleaned !! (i + 1)) as [b|] eqn:Hb.
  - replace (S i) with (i + 1) by lia. rewrite (drop_S _ _ _ Hb). cbn [separate].
    destruct (decide (a = b)) as [->|Hab].
    + erewrite scan_loop_turn by eauto using scan_body_repeat.
      rewrite IH by lia. rewrite (drop_S _ _ _ Hb), <-app_assoc. done.
    + erewrite scan_loop_turn by eauto using scan_body_pair.
      rewrite IH by lia. replace (S (i + 1)) with (i + 2) by lia.
      rewrite <-app_assoc. done.
  - erewrite scan_loop_turn by eauto using scan_body_last.
    rewrite scan_loop_exit by (apply lookup_ge_None in Hb; lia).
    apply lookup_ge_None in Hb.
    rewrite drop_ge by lia. done.
Qed.
End scan.

(** ** Padding and splitting into digraphs *)

Lemma succ2_mod2 (n : nat) : S (S n) mod 2 = n mod 2.
Proof.
  replace (S (S n)) with (n + 1 * 2) by lia. apply Nat.Div0.mod_add.
Qed.

Lemma pad_nil : pad [] = Ok [].
Proof. reflexivity. Qed.

Lemma pad_single (a : N) : pad [a] = Ok [a; filler a].
Proof. reflexivity. Qed.

Lemma pad_cons2 (x y : N) (l : list N) :
  pad (x :: y :: l) = (λ p, x :: y :: p) <$> pad l.
Proof.
  unfold pad. cbn [length].
  rewrite succ2_mod2.
  destruct (decide (length l mod 2 = 1)) as [Hodd|Heven]; [|reflexivity].
  destruct l as [|z l]; [done|].
  cbn [length]. rewrite !Nat.sub_succ, !Nat.sub_0_r.
  destruct (lookup_lt_is_Some_2 (z :: l) (length l)) as [w Hw]; [cbn; lia|].
  rewrite (index_lookup (x :: y :: z :: l) (S (S (length l))) w) by exact Hw.
  rewrite (index_lookup (z :: l) (length l) w) by exact Hw.
  reflexivity.
Qed.

Lemma digraphs_of_nil : digraphs_of [] = [].
Proof. reflexivity. Qed.

Lemma digraphs_of_cons2 (x y : N) (l : list N) :
  digraphs_of (x :: y :: l) = [x; y] :: digraphs_of l.
Proof.
  unfold digraphs_of. cbn [length].
  replace ((S (S (length l)) + 1) / 2) with (S ((length l + 1) / 2)).
  2: { replace (S (S (length l)) + 1) with (1 * 2 + (length l + 1)) by lia.
       rewrite Nat.div_add_l by lia. lia. }
  cbn [seq fmap list_fmap]. rewrite <-fmap_S_seq, <-list_fmap_compose.
  rewrite filter_cons_True by done. f_equal. f_equal.
  apply list_fmap_ext. intros _ k _. cbn [compose].
  unfold slice. replace (2 * S k) with (S (S (2 * k))) by lia. done.
Qed.

Lemma separate_cons2 (a b : N) (rest : list N) :
  separate (a :: b :: rest) =
    if decide (a = b) then a :: filler a :: separate (b :: rest)
    else a :: b :: separate rest.
Proof. reflexivity. Qed.

Lemma pair_up_cons2 (a b : N) (rest : list N) :
  pair_up (a :: b :: rest) =
    if decide (a = b) then [a; filler a] :: pair_up (b :: rest)
    else [a; b] :: pair_up rest.
Proof. reflexivity. Qed.

(** Padding and splitting the buffer of the loop gives [pair_up]. *)
Lemma pad_separate_pair_up (cleaned : list N) :
  ∃ padded, pad (separate cleaned) = Ok padded
            ∧ digraphs_of padded = pair_up cleaned.
Proof.
  remember (length cleaned) as n eqn:Hn.
  revert cleaned Hn. induction (lt_wf n) as [n _ IH]. intros cleaned ->.
  destruct cleaned as [|a [|b rest]].
  - exists []. done.
  - exists [a; filler a]. done.
  - rewrite separate_cons2, pair_up_cons2.
    destruct (decide (a = b)) as [->|Hab].
    + destruct (IH (length (b :: rest))) with (cleaned := b :: rest)
        as (padded & Hpad & Hsplit); [cbn; lia|done|].
      exists (b :: filler b :: padded).
      rewrite pad_cons2, Hpad, digraphs_of_cons2, Hsplit. done.
    + destruct (IH (length rest)) with (cleaned := rest)
        as (padded & Hpad & Hsplit); [cbn; lia|done|].
      exists (a :: b :: padded).
      rewrite pad_cons2, Hpad, digraphs_of_cons2, Hsplit. done.
Qed.

(** [prepare_message] always returns, and returns [pair_up] of the cleaned
    text. *)
Lemma prepare_message_pair_up `{UnicodeData} (message_text : list N) :
  prepare_message message_text = Ok (pair_up (clean message_text)).
Proof.
  unfold prepare_message. case_bool_decide as Hempty.
  { by rewrite Hempty. }
  rewrite scan_loop_separate by lia. rewrite drop_0, app_nil_l, bind_Ok.
  destruct (pad_separate_pair_up (clean message_text)) as (p & -> & <-). done.
Qed.

(** ** Properties of the digraphs *)

(** Induction along the recursion of [pair_up]. *)
Lemma pair_up_ind (P : list N → list (list N) → Prop) :
  P [] [] →
  (∀ a, P [a] [[a; filler a]]) →
  (∀ a rest, P (a :: rest) (pair_up (a :: rest)) →
     P (a :: a :: rest) ([a; filler a] :: pair_up (a :: rest))) →
  (∀ a b rest, a ≠ b → P rest (pair_up rest) →
     P (a :: b :: rest) ([a; b] :: pair_up rest)) →
  ∀ cleaned, P cleaned (pair_up cleaned).
Proof.
  intros Hnil Hone Hrep Hpair cleaned.
  remember (length cleaned) as n eqn:Hn.
  revert cleaned Hn. induction (lt_wf n) as [n _ IH]. intros cleaned ->.
  destruct cleaned as [|a [|b rest]]; [done..|].
  rewrite pair_up_cons2. destruct (decide (a = b)) as [->|Hab].
  - apply Hrep. eapply IH; [|done]. cbn; lia.
  - apply Hpair; [done|]. eapply IH; [|done]. cbn; lia.
Qed.

Lemma filler_neq (a : N) : filler a ≠ a.
Proof. unfold filler. case_decide; [subst; done|done]. Qed.

Lemma filler_X_or_Z (a : N) : filler a = ord "X" ∨ filler a = ord "Z".
Proof. unfold filler. case_decide; auto. Qed.

Lemma pair_up_nil_iff (cleaned : list N) : pair_up cleaned = [] ↔ cleaned = [].
Proof. by apply (pair_up_ind (λ l ds, ds = [] ↔ l = [])). Qed.

Lemma pair_up_length2 (cleaned : list N) :
  Forall (λ dg, length dg = 2) (pair_up cleaned).
Proof.
  apply (pair_up_ind (λ _ ds, Forall (λ dg, length dg = 2) ds));
    repeat constructor; done.
Qed.

Lemma pair_up_distinct (cleaned : list N) :
  Forall (λ dg, ∀ a, dg ≠ [a; a]) (pair_up cleaned).
Proof.
  apply (pair_up_ind (λ _ ds, Forall (λ dg, ∀ a, dg ≠ [a; a]) ds)).
  - constructor.
  - intros a. repeat constructor. intros x [= -> Hf]. by apply filler_neq in Hf.
  - intros a rest IH. constructor; [|done].
    intros x [= -> Hf]. by apply filler_neq in Hf.
  - intros a b rest Hab IH. constructor; [|done]. intros x [= -> <-]. done.
Qed.

Lemma pair_up_even (cleaned : list N) :
  Nat.Even (length (mjoin (pair_up cleaned))).
Proof.
  apply (pair_up_ind (λ _ ds, Nat.Even (length (mjoin ds)))).
  - by exists 0.
  - intros a. by exists 1.
  - intros a rest [k Hk]. exists (S k).
    change (S (S (length (mjoin (pair_up (a :: rest))))) = 2 * S k). lia.
  - intros a b rest _ [k Hk]. exists (S k).
    change (S (S (length (mjoin (pair_up rest)))) = 2 * S k). lia.
Qed.

(** Every letter of every digraph is a letter of the text or a filler. *)
Lemma pair_up_letters (cleaned : list N) :
  Forall (Forall (λ c, c ∈ cleaned ∨ c = ord "X" ∨ c = ord "Z"))
    (pair_up cleaned).
Proof.
  apply (pair_up_ind (λ l ds,
    Forall (Forall (λ c, c ∈ l ∨ c = ord "X" ∨ c = ord "Z")) ds)).
  - constructor.
  - intros a. rewrite Forall_singleton, Forall_cons, Forall_singleton.
    split; [left; constructor|right; apply filler_X_or_Z].
  - intros a rest IH. rewrite Forall_cons, Forall_cons, Forall_singleton.
    split; [split; [left; constructor|right; apply filler_X_or_Z]|].
    eapply Forall_impl; [exact IH|]. intros dg Hdg.
    eapply Forall_impl; [exact Hdg|]. intros c [Hc|Hc]; [left|by right].
    by constructor.
  - intros a b rest Hab IH. rewrite Forall_cons, Forall_cons, Forall_singleton.
    split; [split; left; [constructor|do 2 constructor]|].
    eapply Forall_impl; [exact IH|]. intros dg Hdg.
    eapply Forall_impl; [exact Hdg|]. intros c [Hc|Hc]; [left|by right].
    by do 2 constructor.
Qed.

(** A run of one repeated letter gives one digraph per letter. *)
Lemma pair_up_replicate (n : nat) (a : N) :
  pair_up (replicate n a) = replicate n [a; filler a].
Proof.
  induction n as [|n IH]; [done|]. destruct n as [|n]; [done|].
  change (replicate (S (S n)) a) with (a :: a :: replicate n a).
  rewrite pair_up_cons2, decide_True by done.
  change (a :: replicate n a) with (replicate (S n) a). by rewrite IH.
Qed.

(** ** Membership in the alphabet *)

Lemma elem_of_alphabet (c : N) : c ∈ alphabet ↔ is_AZ c ∧ c ≠ ord "J".
Proof.
  unfold alphabet, is_AZ. rewrite list_elem_of_filter, list_elem_of_fmap.
  setoid_rewrite elem_of_seq. split.
  - intros [? (n & -> & ?)]. split; [lia|done].
  - intros [? ?]. split; [done|]. exists (N.to_nat c). lia.
Qed.

Lemma NoDup_alphabet : NoDup alphabet.
Proof.
  apply NoDup_filter, NoDup_fmap_2; [apply _|apply NoDup_seq].
Qed.

Lemma length_alphabet : length alphabet = 25.
Proof. reflexivity. Qed.

Lemma elem_of_replace (old new c : N) (s : list N) :
  c ∈ replace old new s ↔ (c ∈ s ∧ c ≠ old) ∨ (c = new ∧ old ∈ s).
Proof.
  unfold replace. rewrite list_elem_of_fmap. split.
  - intros (x & -> & Hx). case_decide; subst; auto.
  - intros [[Hc Hne]|[-> Hold]].
    + exists c. by rewrite decide_False.
    + exists old. by rewrite decide_True.
Qed.

(** When the alphabetic characters of the upper-cased text are among
    [A]..[Z], the cleaned text is over the 25-letter alphabet. *)
Lemma clean_in_alphabet `{UnicodeData} (text : list N) :
  Forall (λ c, isalpha c → is_AZ c) (str_upper text) →
  Forall (λ c, c ∈ alphabet) (clean text).
Proof.
  intros HAZ. rewrite Forall_forall in HAZ. apply Forall_forall. intros c.
  unfold clean. rewrite elem_of_replace, !list_elem_of_filter, elem_of_alphabet.
  intros [[[Halpha Hc] HJ]|[-> _]]; [auto|].
  split; [|done]. unfold is_AZ. cbn. lia.
Qed.

(** ** The keyword loop of [create_grid] *)

Lemma elem_of_first_occurrences (text : list N) (c : N) :
  c ∈ first_occurrences text ↔ c ∈ text.
Proof.
  induction text as [|d text IH]; [done|]. cbn [first_occurrences].
  rewrite !elem_of_cons, list_elem_of_filter, IH.
  destruct (decide (c = d)); naive_solver.
Qed.

Lemma NoDup_first_occurrences (text : list N) : NoDup (first_occurrences text).
Proof.
  induction text as [|d text IH]; [constructor|]. cbn [first_occurrences].
  constructor; [|by apply NoDup_filter].
  rewrite list_elem_of_filter. naive_solver.
Qed.

(** The loop, from any state: [seen] grows by the letters of the text, and
    [unique_keyword] by those first occurrences that were not yet seen. *)
Lemma foldl_unique_step (text : list N) (seen : gset N) (unique : list N) :
  foldl unique_step (seen, unique) text =
    (seen ∪ list_to_set text,
     unique ++ filter (λ c, c ∉ seen) (first_occurrences text)).
Proof.
  revert seen unique. induction text as [|c text IH]; intros seen unique.
  { cbn. f_equal; [set_solver|by rewrite app_nil_r]. }
  cbn [foldl unique_step first_occurrences list_to_set].
  destruct (decide (c ∈ seen)) as [Hc|Hc]; rewrite IH; f_equal.
  - set_solver.
  - f_equal. rewrite filter_cons_False by auto.
    rewrite list_filter_filter. apply list_filter_iff. set_solver.
  - set_solver.
  - rewrite <-app_assoc. f_equal. rewrite filter_cons_True by done.
    cbn [app]. f_equal. rewrite list_filter_filter.
    apply list_filter_iff. set_solver.
Qed.

Lemma unique_letters_eq (text : list N) :
  unique_letters text = (list_to_set text, first_occurrences text).
Proof.
  unfold unique_letters. rewrite foldl_unique_step. f_equal; [set_solver|].
  cbn [app]. induction (first_occurrences text) as [|x l IHl]; [done|].
  rewrite filter_cons_True by set_solver. by rewrite IHl.
Qed.

(** The 25 or more letters laid out by [create_grid]: the first occurrences
    of the normalised keyword, then the alphabet letters not among them. *)
Lemma grid_letters_eq `{UnicodeData} (keyword : list N) :
  grid_letters keyword =
    first_occurrences (normalize_keyword keyword)
    ++ filter (λ c, c ∉ first_occurrences (normalize_keyword keyword)) alphabet.
Proof.
  unfold grid_letters. rewrite unique_letters_eq. f_equal.
  apply list_filter_iff. intros c.
  by rewrite elem_of_list_to_set, elem_of_first_occurrences.
Qed.

Lemma NoDup_grid_letters `{UnicodeData} (keyword : list N) :
  NoDup (grid_letters keyword).
Proof.
  rewrite grid_letters_eq. apply NoDup_app. split_and!.
  - apply NoDup_first_occurrences.
  - intros c Hc. rewrite list_elem_of_filter. naive_solver.
  - apply NoDup_filter, NoDup_alphabet.
Qed.

Lemma alphabet_in_grid_letters `{UnicodeData} (keyword : list N) (c : N) :
  c ∈ alphabet → c ∈ grid_letters keyword.
Proof.
  intros Hc. rewrite grid_letters_eq, elem_of_app, list_elem_of_filter.
  destruct (decide (c ∈ first_occurrences (normalize_keyword keyword))); auto.
Qed.

Lemma length_grid_letters `{UnicodeData} (keyword : list N) :
  25 ≤ length (grid_letters keyword).
Proof.
  rewrite <-length_alphabet. apply submseteq_length, NoDup_submseteq.
  - apply NoDup_alphabet.
  - intros c. apply alphabet_in_grid_letters.
Qed.

(** The five slices of [create_grid], joined, are the first 25 letters. *)
Lemma mjoin_slices {A} (l : list A) :
  mjoin ((λ i, slice l i (i + 5)) <$> [0; 5; 10; 15; 20]) = take 25 l.
Proof.
  unfold slice. cbn [fmap list_fmap mjoin list_join].
  replace (0 + 5 - 0) with 5 by lia. replace (5 + 5 - 5) with 5 by lia.
  replace (10 + 5 - 10) with 5 by lia. replace (15 + 5 - 15) with 5 by lia.
  replace (20 + 5 - 20) with 5 by lia. rewrite app_nil_r, drop_0.
  rewrite !app_assoc.
  rewrite (take_take_drop l 5 5). change (5 + 5) with 10.
  rewrite (take_take_drop l 10 5). change (10 + 5) with 15.
  rewrite (take_take_drop l 15 5). change (15 + 5) with 20.
  by rewrite (take_take_drop l 20 5).
Qed.

Lemma existsb_isalpha `{UnicodeData} (keyword : list N) :
  existsb isalpha keyword = false ↔ filter (λ c, isalpha c) keyword = [].
Proof.
  induction keyword as [|c keyword IH]; [done|]. cbn [existsb].
  destruct (isalpha c) eqn:Hc.
  - rewrite filter_cons_True by (by apply Is_true_true). done.
  - rewrite filter_cons_False by (by apply Is_true_false). done.
Qed.

(** [create_grid] raises [ValueError] on a keyword without alphabetic
    characters, and returns the five slices otherwise. *)
Lemma create_grid_raises `{UnicodeData} (keyword : list N) :
  filter (λ c, isalpha c) keyword = [] → create_grid keyword = Raise ValueError.
Proof.
  intros Hk%existsb_isalpha. unfold create_grid. rewrite Hk.
  by rewrite orb_true_r.
Qed.

Lemma create_grid_returns `{UnicodeData} (keyword : list N) :
  filter (λ c, isalpha c) keyword ≠ [] →
  create_grid keyword =
    Ok ((λ i, slice (grid_letters keyword) i (i + 5)) <$> [0; 5; 10; 15; 20]).
Proof.
  intros Hk. unfold create_grid.
  rewrite bool_decide_eq_false_2 by (by intros ->).
  destruct (existsb isalpha keyword) eqn:He; [done|].
  by apply existsb_isalpha in He.
Qed.

(** Every grid [create_grid] returns is 5 by 5 with distinct entries. *)
Lemma create_grid_grid25 `{UnicodeData} (keyword : list N) grid :
  create_grid keyword = Ok grid → grid25 grid.
Proof.
  intros Hg. destruct (decide (filter (λ c, isalpha c) keyword = [])) as [Hk|Hk].
  { by rewrite create_grid_raises in Hg. }
  rewrite create_grid_returns in Hg by done. injection Hg as <-.
  pose proof (length_grid_letters keyword) as Hlen.
  split_and!; [done| |].
  - unfold slice. repeat constructor; rewrite length_take, length_drop; lia.
  - change (NoDup (mjoin ((λ i, slice (grid_letters keyword) i (i + 5))
                            <$> [0; 5; 10; 15; 20]))).
    rewrite mjoin_slices. eapply sublist_NoDup; [apply NoDup_grid_letters|].
    apply sublist_take.
Qed.

(** For a keyword whose alphabetic characters are among [A]..[Z] once
    upper-cased, the 25 letters laid out are a rearrangement of the
    alphabet. *)
Lemma grid_letters_complete `{UnicodeData} (keyword : list N) :
  Forall (λ c, isalpha c → is_AZ c) (str_upper keyword) →
  grid_letters keyword ≡ₚ alphabet ∧ take 25 (grid_letters keyword) = grid_letters keyword.
Proof.
  intros HAZ. apply clean_in_alphabet in HAZ. rewrite Forall_forall in HAZ.
  assert (grid_letters keyword ≡ₚ alphabet) as Hperm.
  { apply NoDup_Permutation;
      [apply NoDup_grid_letters|apply NoDup_alphabet|].
    intros c. split; [|apply alphabet_in_grid_letters].
    rewrite grid_letters_eq, elem_of_app, list_elem_of_filter.
    rewrite elem_of_first_occurrences. intros [Hc|[_ Hc]]; [|done].
    by apply HAZ. }
  split; [done|]. apply take_ge.
  by rewrite Hperm, length_alphabet.
Qed.

(** ** Cells of a grid *)

Lemma cell_Ok (grid : list (list N)) (r c : nat) (x : N) :
  cell grid r c = Ok x ↔ ∃ row, grid !! r = Some row ∧ row !! c = Some x.
Proof.
  unfold cell, index. destruct (grid !! r) as [row|]; cbn.
  - destruct (row !! c) eqn:Hc; naive_solver.
  - naive_solver.
Qed.

Section grid.
Context (grid : list (list N)) (Hgrid : grid25 grid).
Implicit Types (r c : nat) (x y : N).

Lemma cell_mjoin r c x :
  c < 5 → cell grid r c = Ok x ↔ mjoin grid !! (r * 5 + c) = Some x.
Proof.
  intros Hc. destruct Hgrid as (_ & Hrows & _).
  by rewrite cell_Ok, (join_lookup_Some_same_length' 5).
Qed.

Lemma cell_range r c x : cell grid r c = Ok x → r < 5 ∧ c < 5.
Proof.
  destruct Hgrid as (Hlen & Hrows & _).
  intros (row & Hr & Hx)%cell_Ok. rewrite Forall_forall in Hrows.
  apply lookup_lt_Some in Hr as Hr'. apply lookup_lt_Some in Hx.
  apply list_elem_of_lookup_2, Hrows in Hr. lia.
Qed.

Lemma cell_defined r c : r < 5 → c < 5 → ∃ x, cell grid r c = Ok x.
Proof.
  destruct Hgrid as (Hlen & Hrows & _). intros Hr Hc.
  destruct (lookup_lt_is_Some_2 grid r) as [row Hrow]; [lia|].
  rewrite Forall_forall in Hrows.
  destruct (lookup_lt_is_Some_2 row c) as [x Hx].
  { apply list_elem_of_lookup_2, Hrows in Hrow. lia. }
  exists x. apply cell_Ok. eauto.
Qed.

(** A letter sits in one cell only. *)
Lemma cell_inj r c r' c' x :
  cell grid r c = Ok x → cell grid r' c' = Ok x → r = r' ∧ c = c'.
Proof.
  intros H1 H2.
  destruct (cell_range _ _ _ H1) as [_ Hc], (cell_range _ _ _ H2) as [_ Hc'].
  apply cell_mjoin in H1; [|done]. apply cell_mjoin in H2; [|done].
  destruct Hgrid as (_ & _ & Hnodup).
  pose proof (NoDup_lookup _ _ _ _ Hnodup H1 H2). lia.
Qed.

Lemma cell_elem_of x : x ∈ mjoin grid → ∃ r c, cell grid r c = Ok x.
Proof.
  destruct Hgrid as (_ & Hrows & _).
  intros [i Hi]%list_elem_of_lookup_1.
  apply (join_lookup_Some_same_length 5) in Hi as (r & row & c & ? & ? & _);
    [|done].
  exists r, c. apply cell_Ok. eauto.
Qed.

Lemma find_from_found x r c todo :
  cell grid r c = Ok x → (r, c) ∈ todo →
  Forall (λ p, p.1 < 5 ∧ p.2 < 5) todo →
  find_from grid x todo = Ok (r, c).
Proof.
  intros Hx. induction todo as [|[r' c'] todo IH]; intros Hin Hrange.
  { by apply elem_of_nil in Hin. }
  apply Forall_cons in Hrange as [[Hr' Hc'] Hrange]. cbn [find_from].
  destruct (cell_defined r' c' Hr' Hc') as [x' Hx']. rewrite Hx', bind_Ok.
  destruct (decide (x' = x)) as [->|Hne].
  - by destruct (cell_inj _ _ _ _ _ Hx Hx') as [-> ->].
  - apply IH; [|done]. apply elem_of_cons in Hin as [[= -> ->]|Hin]; [|done].
    congruence.
Qed.

(** [find_coordinates] returns the cell a letter sits in. *)
Lemma find_coordinates_cell x r c :
  cell grid r c = Ok x → find_coordinates grid x = Ok (r, c).
Proof.
  intros Hx. destruct (cell_range _ _ _ Hx) as [Hr Hc].
  apply find_from_found; [done| |].
  - unfold cells. apply list_elem_of_bind. exists r.
    split; [|apply elem_of_seq; lia].
    apply list_elem_of_bind. exists c.
    split; [constructor|apply elem_of_seq; lia].
  - apply (bool_decide_unpack _). vm_compute. exact I.
Qed.

(** [encrypt_pair] on two letters of the grid: the letters at the new
    coordinates. *)
Lemma encrypt_pair_cells x y r1 c1 r2 c2 :
  cell grid r1 c1 = Ok x → cell grid r2 c2 = Ok y →
  encrypt_pair grid [x; y] =
    let '((new_r1, new_c1), (new_r2, new_c2)) :=
      new_coordinates (r1, c1) (r2, c2) in
    encrypted_char1 ← cell grid new_r1 new_c1;
    encrypted_char2 ← cell grid new_r2 new_c2;
    Ok [encrypted_char1; encrypted_char2].
Proof.
  intros Hx Hy. unfold encrypt_pair. cbn [index lookup list_lookup].
  rewrite !bind_Ok, (find_coordinates_cell _ _ _ Hx), bind_Ok.
  by rewrite (find_coordinates_cell _ _ _ Hy), bind_Ok.
Qed.
End grid.

Lemma grid25_monarchy : grid25 grid_monarchy.
Proof.
  split_and!; [reflexivity|by repeat constructor|].
  apply (bool_decide_unpack _). vm_compute. exact I.
Defined.

(** [create_grid] on a keyword whose alphabetic characters are among
    [A]..[Z] once upper-cased: the grid holds every letter of the alphabet
    exactly once, the first occurrences of the keyword letters first and the
    other letters after them in alphabet order. *)
Lemma create_grid_complete `{UnicodeData} (keyword : list N) :
  Forall (λ c, isalpha c → is_AZ c) (str_upper keyword) →
  filter (λ c, isalpha c) keyword ≠ [] →
  ∃ grid, create_grid keyword = Ok grid
    ∧ grid25 grid
    ∧ mjoin grid ≡ₚ alphabet
    ∧ mjoin grid =
        first_occurrences (normalize_keyword keyword)
        ++ filter (λ c, c ∉ first_occurrences (normalize_keyword keyword))
             alphabet.
Proof.
  intros HAZ Hk. eexists. split; [by apply create_grid_returns|].
  destruct (grid_letters_complete keyword HAZ) as [Hperm Htake].
  split; [eapply create_grid_grid25; by apply create_grid_returns|].
  rewrite mjoin_slices, Htake. split; [done|apply grid_letters_eq].
Qed.

(** The digraphs of a text whose alphabetic characters are among [A]..[Z]
    once upper-cased are over the 25-letter alphabet. *)
Lemma prepare_message_in_alphabet `{UnicodeData} (message_text : list N) :
  Forall (λ c, isalpha c → is_AZ c) (str_upper message_text) →
  ∃ digraphs, prepare_message message_text = Ok digraphs
    ∧ Forall (Forall (λ c, c ∈ alphabet)) digraphs.
Proof.
  intros HAZ%clean_in_alphabet. rewrite Forall_forall in HAZ.
  eexists. split; [apply prepare_message_pair_up|].
  eapply Forall_impl; [apply pair_up_letters|]. intros dg Hdg.
  eapply Forall_impl; [exact Hdg|]. intros c [Hc|[->| ->]]; [by apply HAZ|..];
    apply elem_of_alphabet; (split; [unfold is_AZ; cbn; lia|done]).
Qed.

(** The cleaned text is empty exactly when no character of the upper-cased
    text is alphabetic. *)
Lemma clean_nil_iff `{UnicodeData} (text : list N) :
  clean text = [] ↔ Forall (λ ch, ¬ isalpha ch) (str_upper text).
Proof.
  unfold clean, replace. split.
  - intros Hnil%fmap_nil_inv. apply Forall_forall. intros ch Hch Halpha.
    eapply filter_nil_not_elem_of; [exact Hnil|exact Halpha|exact Hch].
  - intros Hno. rewrite Forall_forall in Hno.
    induction (str_upper text) as [|ch l IH]; [done|].
    rewrite filter_cons_False by (apply Hno; constructor).
    apply IH. intros c Hc. apply Hno. by constructor.
Qed.

(** The shift by one modulo 5. *)
Lemma succ_mod5_lt (n : nat) : (n + 1) mod 5 < 5.
Proof. by apply Nat.mod_upper_bound. Qed.

Lemma succ_mod5_inj (m n : nat) :
  m < 5 → n < 5 → (m + 1) mod 5 = (n + 1) mod 5 → m = n.
Proof.
  intros Hm Hn.
  destruct m as [|[|[|[|[|m]]]]]; [..|lia];
    destruct n as [|[|[|[|[|n]]]]]; try lia; discriminate.
Qed.

(** ** Runs on inputs of the unit tests *)

Example create_grid_monarchy :
  create_grid (U := latin1) (py "MONARCHY") = Ok grid_monarchy.
Proof. vm_compute. reflexivity. Qed.

Example create_grid_complete_monarchy :
  ∃ grid, create_grid (U := latin1) (py "MONARCHY") = Ok grid
    ∧ mjoin grid ≡ₚ alphabet.
Proof.
  destruct (create_grid_complete (H := latin1) (py "MONARCHY"))
    as (grid & Hgrid & _ & Hperm & _).
  - unfold is_AZ. apply (bool_decide_unpack _). vm_compute. exact I.
  - vm_compute. discriminate.
  - eauto.
Qed.

Example prepare_message_balloon :
  prepare_message (U := latin1) (py "BALLOON")
  = Ok [py "BA"; py "LX"; py "LO"; py "ON"].
Proof. vm_compute. reflexivity. Qed.

Example prepare_message_hello_john :
  prepare_message (U := latin1) (py "HeLlO JOhN! 123")
  = Ok [py "HE"; py "LX"; py "LO"; py "IO"; py "HN"].
Proof. vm_compute. reflexivity. Qed.

Example encrypt_pair_monarchy :
  encrypt_pair grid_monarchy (py "AR") = Ok (py "RM")
  ∧ encrypt_pair grid_monarchy (py "RA") = Ok (py "MR")
  ∧ encrypt_pair grid_monarchy (py "ML") = Ok (py "CU")
  ∧ encrypt_pair grid_monarchy (py "UL") = Ok (py "MU")
  ∧ encrypt_pair grid_monarchy (py "HE") = Ok (py "CF")
  ∧ encrypt_pair grid_monarchy (py "GA") = Ok (py "IN").
Proof. vm_compute. done. Qed.

Example playfair_encrypt_communication :
  playfair_encrypt (U := latin1) (py "EXAMPLE") (py "COMMUNICATION")
  = Ok (py "LRPAEYGKICRNTG").
Proof. vm_compute. reflexivity. Qed.

(** * The claims *)

(** C1, as amended.  [playfair_encrypt("PLAYFAIR", "WE ARE NOT SAFE")]
    returns the ciphertext ["UHLBNUQNQYPM"]: the digraphs WE AR EN OT SA FE
    become UH LB NU QN QY PM under the row, column and rectangle rules. *)
Theorem playfair_encrypt_we_are_not_safe :
  playfair_encrypt (U := latin1) (py "PLAYFAIR") (py "WE ARE NOT SAFE")
  = Ok (py "UHLBNUQNQYPM").
Proof. vm_compute. reflexivity. Qed.

(** C1, as stated, fails: the ciphertext is not ["UBLRUVQPQYPM"]. *)
Lemma playfair_encrypt_we_are_not_safe_differs :
  playfair_encrypt (U := latin1) (py "PLAYFAIR") (py "WE ARE NOT SAFE")
  ≠ Ok (py "UBLRUVQPQYPM").
Proof. vm_compute. discriminate. Qed.

(** C3, as amended.  [prepare_message("HELLO")] returns the digraphs
    [HE, LX, LO]: after the filler separates the two L, the second L is
    paired with the O that follows it. *)
Theorem prepare_message_hello :
  prepare_message (U := latin1) (py "HELLO")
  = Ok [py "HE"; py "LX"; py "LO"].
Proof. vm_compute. reflexivity. Qed.

(** C3, as stated, fails: the digraphs are not [HE, LX, OX]. *)
Lemma prepare_message_hello_differs :
  prepare_message (U := latin1) (py "HELLO")
  ≠ Ok [py "HE"; py "LX"; py "OX"].
Proof. vm_compute. discriminate. Qed.

(** C2.  [prepare_message] is the scan of the cleaned text followed by
    padding and splitting.  Where the letter [a] at cursor [i] equals its
    successor, the loop body appends [a] and a filler (Z if [a] is X,
    otherwise X) and moves the cursor to [i + 1], so the next turn of the
    loop starts at the successor; with a third [a] behind it two turns
    append [a], filler, [a], filler and reach [i + 2]; and a text that
    cleans to a run of [n] letters [a] gives [n] digraphs [a] filler. *)
Theorem prepare_message_repeat_advances_one {U : UnicodeData}
    (message_text : str) (i : nat) (a : char) :
  clean message_text !! i = Some a →
  clean message_text !! (i + 1) = Some a →
  let cleaned := clean message_text in
  prepare_message message_text =
    (prepared ← scan_loop (length cleaned) cleaned 0 [];
     padded ← pad prepared;
     Ok (digraphs_of padded))
  ∧ filler a = (if decide (a = ord "X") then ord "Z" else ord "X")
  ∧ (∀ prepared,
       scan_body cleaned i prepared = Ok (i + 1, prepared ++ [a; filler a]))
  ∧ (∀ fuel prepared,
       scan_loop (S fuel) cleaned i prepared =
       scan_loop fuel cleaned (i + 1) (prepared ++ [a; filler a]))
  ∧ (cleaned !! (i + 2) = Some a → ∀ fuel prepared,
       scan_loop (S (S fuel)) cleaned i prepared =
       scan_loop fuel cleaned (i + 2)
         (prepared ++ [a; filler a; a; filler a]))
  ∧ (∀ n, cleaned = replicate n a →
       prepare_message message_text = Ok (replicate n [a; filler a])).
Proof.
  intros Ha Hb cleaned. subst cleaned.
  assert (i < length (clean message_text)) as Hi by eauto using lookup_lt_Some.
  split_and!.
  - unfold prepare_message. case_bool_decide as Hempty; [|done].
    by rewrite Hempty.
  - done.
  - intros prepared. by apply scan_body_repeat.
  - intros fuel prepared. by apply scan_loop_turn, scan_body_repeat.
  - intros Hc fuel prepared.
    erewrite scan_loop_turn by eauto using scan_body_repeat.
    erewrite scan_loop_turn;
      [|eauto using lookup_lt_Some|apply scan_body_repeat; [done|]].
    + replace (i + 1 + 1) with (i + 2) by lia. by rewrite <-app_assoc.
    + by replace (i + 1 + 1) with (i + 2) by lia.
  - intros n Hn. by rewrite prepare_message_pair_up, Hn, pair_up_replicate.
Qed.

Lemma prepare_message_repeat_advances_one_witness :
  scan_body (clean (U := latin1) (py "AAA")) 0 []
  = Ok (1, [ord "A"; ord "X"]).
Proof.
  destruct (prepare_message_repeat_advances_one (U := latin1)
              (py "AAA") 0 (ord "A")) as (_ & _ & Hbody & _).
  - reflexivity.
  - reflexivity.
  - exact (Hbody []).
Defined.

(** C8.  [prepare_message] returns on every text.  The result is empty
    exactly when no character of the upper-cased text is alphabetic; the
    letters of its digraphs, taken together, are even in number; every
    digraph has two letters; and no digraph is a doubled letter. *)
Theorem prepare_message_never_fails {U : UnicodeData} (message_text : str) :
  ∃ digraphs, prepare_message message_text = Ok digraphs
    ∧ (digraphs = [] ↔ Forall (λ ch, ¬ isalpha ch) (str_upper message_text))
    ∧ Nat.Even (length (mjoin digraphs))
    ∧ Forall (λ dg, length dg = 2) digraphs
    ∧ Forall (λ dg, ∀ a, dg ≠ [a; a]) digraphs.
Proof.
  exists (pair_up (clean message_text)).
  split; [apply prepare_message_pair_up|]. split_and!.
  - rewrite pair_up_nil_iff. apply clean_nil_iff.
  - apply pair_up_even.
  - apply pair_up_length2.
  - apply pair_up_distinct.
Qed.

(** C9.  [create_grid] raises [ValueError] exactly when filtering the
    keyword for alphabetic characters leaves nothing, and returns a grid
    otherwise; [playfair_encrypt] raises whatever [create_grid] raises,
    whatever the message.  [create_grid("")] and [create_grid("123")]
    raise [ValueError]. *)
Theorem create_grid_invalid_key :
  (∀ (U : UnicodeData) (keyword : str),
     (create_grid keyword = Raise ValueError
      ↔ filter (λ c, isalpha c) keyword = [])
     ∧ (filter (λ c, isalpha c) keyword ≠ [] →
        ∃ grid, create_grid keyword = Ok grid)
     ∧ (∀ e message_text, create_grid keyword = Raise e →
        playfair_encrypt keyword message_text = Raise e))
  ∧ create_grid (U := latin1) (py "") = Raise ValueError
  ∧ create_grid (U := latin1) (py "123") = Raise ValueError
  ∧ (∀ message_text,
       playfair_encrypt (U := latin1) (py "123") message_text
       = Raise ValueError).
Proof.
  split_and!; [|reflexivity..].
  intros U keyword. split_and!.
  - split; [|apply create_grid_raises].
    intros Hraise. destruct (decide (filter (λ c, isalpha c) keyword = []));
      [done|]. by rewrite create_grid_returns in Hraise.
  - intros Hk. eexists. by apply create_grid_returns.
  - intros e message_text Hraise. unfold playfair_encrypt. by rewrite Hraise.
Qed.

(** C4, at a keyword the claim covers and the code mishandles.  The
    keyword ["café"] has alphabetic characters, so [create_grid] accepts
    it; the upper-case form É (U+00C9) of its last letter takes a cell, and
    the 25th alphabet letter, Z, is cut off by the slicing: the grid does
    not hold every letter of the alphabet. *)
Theorem create_grid_cafe_drops_Z :
  ∃ grid, create_grid (U := latin1) (py "caf" ++ [233%N]) = Ok grid
    ∧ grid = [py "CAF" ++ [201%N; ord "B"]; py "DEGHI"; py "KLMNO";
              py "PQRST"; py "UVWXY"]
    ∧ ord "Z" ∈ alphabet
    ∧ (ord "Z" ∉ mjoin grid)
    ∧ ¬ (mjoin grid ≡ₚ alphabet).
Proof.
  eexists. split; [vm_compute; reflexivity|]. split; [reflexivity|].
  assert (ord "Z" ∈ alphabet) as HZ
    by (apply elem_of_alphabet; unfold is_AZ; cbn; split; [lia|done]).
  assert (∀ l : list N, bool_decide (ord "Z" ∈ l) = false →
            (ord "Z" ∉ l) ∧ ¬ (l ≡ₚ alphabet)) as Hout.
  { intros l Hl%bool_decide_eq_false. split; [done|].
    intros Hperm. apply Hl. by rewrite Hperm. }
  split; [done|]. apply Hout. vm_compute. reflexivity.
Qed.

(** C5, at a text the claim covers and the code mishandles.  In the text
    ["café"] the last letter is alphabetic; it is cleaned to É (U+00C9),
    which is returned in the digraph [FÉ] although it is no letter of the
    25-letter alphabet. *)
Theorem prepare_message_cafe_outside_alphabet :
  prepare_message (U := latin1) (py "caf" ++ [233%N])
  = Ok [py "CA"; [ord "F"; 201%N]]
  ∧ 201%N ∉ alphabet.
Proof.
  split; [vm_compute; reflexivity|].
  rewrite elem_of_alphabet. unfold is_AZ. lia.
Qed.

(** C6.  On a grid of 25 distinct letters, for letters [x] at [(r1, c1)]
    and [y] at [(r2, c2)], [encrypt_pair] returns two letters [e1 e2], in
    this order: in the same row, the letters one column to the right modulo
    5; else in the same column, the letters one row down modulo 5; else the
    letters at [(r1, c2)] and [(r2, c1)].  From column 4 the shift lands in
    column 0, from row 4 in row 0. *)
Theorem encrypt_pair_rules (grid : list (list char)) (x y : char)
    (r1 c1 r2 c2 : nat) :
  grid25 grid →
  cell grid r1 c1 = Ok x →
  cell grid r2 c2 = Ok y →
  ∃ e1 e2, encrypt_pair grid [x; y] = Ok [e1; e2]
    ∧ (r1 = r2 →
       cell grid r1 ((c1 + 1) mod 5) = Ok e1
       ∧ cell grid r2 ((c2 + 1) mod 5) = Ok e2)
    ∧ (r1 ≠ r2 → c1 = c2 →
       cell grid ((r1 + 1) mod 5) c1 = Ok e1
       ∧ cell grid ((r2 + 1) mod 5) c2 = Ok e2)
    ∧ (r1 ≠ r2 → c1 ≠ c2 →
       cell grid r1 c2 = Ok e1 ∧ cell grid r2 c1 = Ok e2)
    ∧ (r1 = r2 → c1 = 4 → cell grid r1 0 = Ok e1)
    ∧ (r1 = r2 → c2 = 4 → cell grid r2 0 = Ok e2)
    ∧ (r1 ≠ r2 → c1 = c2 → r1 = 4 → cell grid 0 c1 = Ok e1)
    ∧ (r1 ≠ r2 → c1 = c2 → r2 = 4 → cell grid 0 c2 = Ok e2).
Proof.
  intros Hgrid Hx Hy.
  destruct (cell_range _ Hgrid _ _ _ Hx) as [Hr1 Hc1].
  destruct (cell_range _ Hgrid _ _ _ Hy) as [Hr2 Hc2].
  rewrite (encrypt_pair_cells _ Hgrid _ _ _ _ _ _ Hx Hy).
  unfold new_coordinates.
  destruct (decide (r1 = r2)) as [Hr|Hr]; [|destruct (decide (c1 = c2)) as [Hc|Hc]].
  - destruct (cell_defined _ Hgrid r1 ((c1 + 1) mod 5)) as [e1 He1];
      [done|by apply Nat.mod_upper_bound|].
    destruct (cell_defined _ Hgrid r2 ((c2 + 1) mod 5)) as [e2 He2];
      [done|by apply Nat.mod_upper_bound|].
    exists e1, e2. rewrite He1, bind_Ok, He2, bind_Ok.
    split_and!; try done; by intros _ ->.
  - destruct (cell_defined _ Hgrid ((r1 + 1) mod 5) c1) as [e1 He1];
      [by apply Nat.mod_upper_bound|done|].
    destruct (cell_defined _ Hgrid ((r2 + 1) mod 5) c2) as [e2 He2];
      [by apply Nat.mod_upper_bound|done|].
    exists e1, e2. rewrite He1, bind_Ok, He2, bind_Ok.
    split_and!; try done; by intros _ _ ->.
  - destruct (cell_defined _ Hgrid r1 c2) as [e1 He1]; [done..|].
    destruct (cell_defined _ Hgrid r2 c1) as [e2 He2]; [done..|].
    exists e1, e2. rewrite He1, bind_Ok, He2, bind_Ok.
    split_and!; done.
Qed.

Lemma encrypt_pair_rules_witness :
  ∃ e1 e2, encrypt_pair grid_monarchy (py "RA") = Ok [e1; e2]
    ∧ cell grid_monarchy 0 0 = Ok e1
    ∧ cell grid_monarchy 0 4 = Ok e2.
Proof.
  destruct (encrypt_pair_rules grid_monarchy (ord "R") (ord "A") 0 4 0 3)
    as (e1 & e2 & Henc & Hrow & _ & _ & Hwrap & _).
  - exact grid25_monarchy.
  - reflexivity.
  - reflexivity.
  - exists e1, e2. split; [exact Henc|].
    split; [exact (Hwrap eq_refl eq_refl)|exact (proj2 (Hrow eq_refl))].
Defined.

(** C7.  On a grid of 25 distinct letters, for two letters of the grid in
    different rows and different columns, [encrypt_pair] applied to the
    result of [encrypt_pair] gives the digraph back. *)
Theorem encrypt_pair_rectangle_twice (grid : list (list char)) (x y : char)
    (r1 c1 r2 c2 : nat) :
  grid25 grid →
  cell grid r1 c1 = Ok x →
  cell grid r2 c2 = Ok y →
  r1 ≠ r2 → c1 ≠ c2 →
  encrypt_pair grid [x; y] ≫= encrypt_pair grid = Ok [x; y].
Proof.
  intros Hgrid Hx Hy Hr Hc.
  destruct (cell_range _ Hgrid _ _ _ Hx) as [Hr1 Hc1].
  destruct (cell_range _ Hgrid _ _ _ Hy) as [Hr2 Hc2].
  destruct (cell_defined _ Hgrid r1 c2) as [e1 He1]; [done..|].
  destruct (cell_defined _ Hgrid r2 c1) as [e2 He2]; [done..|].
  rewrite (encrypt_pair_cells _ Hgrid _ _ _ _ _ _ Hx Hy).
  unfold new_coordinates. rewrite !decide_False by done.
  rewrite He1, bind_Ok, He2, !bind_Ok.
  rewrite (encrypt_pair_cells _ Hgrid _ _ _ _ _ _ He1 He2).
  unfold new_coordinates. rewrite !decide_False by done.
  by rewrite Hx, bind_Ok, Hy, bind_Ok.
Qed.

Lemma encrypt_pair_rectangle_twice_witness :
  encrypt_pair grid_monarchy (py "HE") ≫= encrypt_pair grid_monarchy
  = Ok (py "HE").
Proof.
  apply (encrypt_pair_rectangle_twice grid_monarchy (ord "H") (ord "E")
           1 1 2 0).
  - exact grid25_monarchy.
  - reflexivity.
  - reflexivity.
  - lia.
  - lia.
Defined.

(** C10.  On a grid of 25 distinct letters, [encrypt_pair] turns a digraph
    of two different letters of the grid into a digraph of two different
    letters. *)
Theorem encrypt_pair_keeps_distinct (grid : list (list char)) (x y : char) :
  grid25 grid →
  x ∈ mjoin grid → y ∈ mjoin grid → x ≠ y →
  ∃ e1 e2, encrypt_pair grid [x; y] = Ok [e1; e2] ∧ e1 ≠ e2.
Proof.
  intros Hgrid (r1 & c1 & Hx)%(cell_elem_of _ Hgrid)
    (r2 & c2 & Hy)%(cell_elem_of _ Hgrid) Hxy.
  destruct (cell_range _ Hgrid _ _ _ Hx) as [Hr1 Hc1].
  destruct (cell_range _ Hgrid _ _ _ Hy) as [Hr2 Hc2].
  assert (r1 ≠ r2 ∨ c1 ≠ c2) as Hpos.
  { destruct (decide (r1 = r2)) as [->|]; [|by left].
    destruct (decide (c1 = c2)) as [->|]; [|by right]. congruence. }
  rewrite (encrypt_pair_cells _ Hgrid _ _ _ _ _ _ Hx Hy).
  set (new := new_coordinates (r1, c1) (r2, c2)).
  assert (new.1 ≠ new.2 ∧ (new.1.1 < 5 ∧ new.1.2 < 5)
          ∧ (new.2.1 < 5 ∧ new.2.2 < 5)) as (Hnew & [? ?] & [? ?]).
  { subst new. unfold new_coordinates.
    pose proof succ_mod5_lt. repeat case_decide; cbn [fst snd].
    - split; [|auto]. intros [= _ Heq%succ_mod5_inj]; [|done..].
      subst. by destruct Hpos.
    - split; [|auto]. intros [= Heq%succ_mod5_inj _]; done.
    - split; [|auto]. intros [= ? _]. done. }
  destruct new as [[new_r1 new_c1] [new_r2 new_c2]]. cbn [fst snd] in *.
  destruct (cell_defined _ Hgrid new_r1 new_c1) as [e1 He1]; [done..|].
  destruct (cell_defined _ Hgrid new_r2 new_c2) as [e2 He2]; [done..|].
  exists e1, e2. rewrite He1, bind_Ok, He2, bind_Ok. split; [done|].
  intros <-. destruct (cell_inj _ Hgrid _ _ _ _ _ He1 He2). congruence.
Qed.

Lemma encrypt_pair_keeps_distinct_witness :
  ∃ e1 e2, encrypt_pair grid_monarchy (py "ML") = Ok [e1; e2] ∧ e1 ≠ e2.
Proof.
  apply (encrypt_pair_keeps_distinct grid_monarchy (ord "M") (ord "L")).
  - exact grid25_monarchy.
  - apply (bool_decide_unpack _). vm_compute. exact I.
  - apply (bool_decide_unpack _). vm_compute. exact I.
  - discriminate.
Defined.

(** * Further properties *)

(** ** Scanning the grid *)

Lemma elem_of_cells (p : nat * nat) : p ∈ cells ↔ p.1 < 5 ∧ p.2 < 5.
Proof.
  split.
  - revert p. apply Forall_forall, (bool_decide_unpack _). vm_compute. exact I.
  - destruct p as [r c]. cbn [fst snd]. intros [Hr Hc].
    unfold cells. apply list_elem_of_bind. exists r.
    split; [|apply elem_of_seq; lia].
    apply list_elem_of_bind. exists c.
    split; [constructor|apply elem_of_seq; lia].
Qed.

Lemma cells_lookup (i : nat) :
  i < 25 → cells !! i = Some (i / 5, i mod 5).
Proof.
  intros Hi. do 25 (destruct i as [|i]; [reflexivity|]). lia.
Qed.

Lemma cells_lookup_cell (r c : nat) :
  r < 5 → c < 5 → cells !! (r * 5 + c) = Some (r, c).
Proof.
  intros Hr Hc. rewrite cells_lookup by lia. f_equal. f_equal.
  - rewrite Nat.div_add_l by lia. rewrite Nat.div_small by lia. lia.
  - rewrite Nat.add_comm, Nat.Div0.mod_add. by apply Nat.mod_small.
Qed.

(** What a successful [find_from] tells: the cell holds the letter and the
    cells tried before it hold other letters. *)
Lemma find_from_Ok (grid : list (list N)) (ch : N) (todo : list (nat * nat))
    (r c : nat) :
  find_from grid ch todo = Ok (r, c) →
  ∃ i, todo !! i = Some (r, c) ∧ cell grid r c = Ok ch
       ∧ ∀ j p, j < i → todo !! j = Some p →
           ∃ x, cell grid p.1 p.2 = Ok x ∧ x ≠ ch.
Proof.
  induction todo as [|[r' c'] todo IH]; [discriminate|]. cbn [find_from].
  intros (x & Hx & Hfind)%bind_Ok_inv.
  destruct (decide (x = ch)) as [->|Hne].
  - injection Hfind as -> ->. exists 0. split_and!; [done..|]. lia.
  - destruct (IH Hfind) as (i & Hi & Hcell & Hbefore).
    exists (S i). split_and!; [done..|].
    intros [|j] p Hj Hp.
    + injection Hp as <-. eauto.
    + apply (Hbefore j); [lia|done].
Qed.

(** On cells that all exist, [find_from] returns a cell or raises
    [ValueError], the latter exactly when no cell holds the letter. *)
Lemma find_from_defined (grid : list (list N)) (ch : N)
    (todo : list (nat * nat)) :
  Forall (λ p, ∃ x, cell grid p.1 p.2 = Ok x) todo →
  (∃ p, find_from grid ch todo = Ok p)
  ∨ (find_from grid ch todo = Raise ValueError
     ∧ Forall (λ p, cell grid p.1 p.2 ≠ Ok ch) todo).
Proof.
  induction 1 as [|[r c] todo [x Hx] _ IH]; [right; by split|].
  cbn [find_from]. cbn [fst snd] in Hx. rewrite Hx, bind_Ok.
  destruct (decide (x = ch)) as [->|Hne]; [left; eauto|].
  destruct IH as [?|[? ?]]; [by left|right].
  split; [done|]. constructor; [|done]. cbn [fst snd]. congruence.
Qed.

Section shape.
Context (grid : list (list N)) (Hshape : grid5x5 grid).

Lemma cell_defined_shape (r c : nat) :
  r < 5 → c < 5 → ∃ x, cell grid r c = Ok x.
Proof.
  destruct Hshape as (Hlen & Hrows). intros Hr Hc.
  destruct (lookup_lt_is_Some_2 grid r) as [row Hrow]; [lia|].
  rewrite Forall_forall in Hrows.
  destruct (lookup_lt_is_Some_2 row c) as [x Hx].
  { apply list_elem_of_lookup_2, Hrows in Hrow. lia. }
  exists x. apply cell_Ok. eauto.
Qed.

Lemma elem_of_grid_cell (x : N) :
  x ∈ mjoin grid ↔ ∃ r c, r < 5 ∧ c < 5 ∧ cell grid r c = Ok x.
Proof.
  destruct Hshape as (Hlen & Hrows). rewrite list_elem_of_lookup.
  setoid_rewrite (join_lookup_Some_same_length 5); [|done].
  setoid_rewrite cell_Ok. split.
  - intros (i & r & row & c & Hrow & Hx & _). exists r, c.
    apply lookup_lt_Some in Hrow as Hr. apply lookup_lt_Some in Hx as Hc.
    rewrite Forall_forall in Hrows.
    pose proof (Hrows _ (list_elem_of_lookup_2 _ _ _ Hrow)) as Hl.
    cbn beta in Hl. split_and!; [lia..|]. by exists row.
  - intros (r & c & _ & _ & row & Hrow & Hx).
    exists (r * 5 + c), r, row, c. split_and!; [done..|lia].
Qed.

Lemma find_coordinates_shape (ch : N) :
  (∃ p, find_coordinates grid ch = Ok p)
  ∨ (find_coordinates grid ch = Raise ValueError ∧ ch ∉ mjoin grid).
Proof.
  destruct (find_from_defined grid ch cells) as [?|[Hraise Hnone]].
  - apply Forall_forall. intros p [? ?]%elem_of_cells.
    by apply cell_defined_shape.
  - by left.
  - right. split; [done|]. rewrite elem_of_grid_cell.
    intros (r & c & Hr & Hc & Hx). rewrite Forall_forall in Hnone.
    apply (Hnone (r, c)); [by apply elem_of_cells|done].
Qed.
End shape.

Lemma grid25_grid5x5 (grid : list (list N)) : grid25 grid → grid5x5 grid.
Proof. intros (? & ? & _). by split. Qed.

Lemma NoDup_cells : NoDup cells.
Proof. apply (bool_decide_unpack _). vm_compute. exact I. Qed.

Lemma find_from_skip (grid : list (list N)) (ch : N)
    (tried todo : list (nat * nat)) :
  Forall (λ p, ∃ x, cell grid p.1 p.2 = Ok x ∧ x ≠ ch) tried →
  find_from grid ch (tried ++ todo) = find_from grid ch todo.
Proof.
  induction 1 as [|[r c] tried (x & Hx & Hne) _ IH]; [done|].
  cbn [app find_from]. cbn [fst snd] in Hx. rewrite Hx, bind_Ok.
  by rewrite decide_False.
Qed.

(** ** The shift of coordinates *)

Lemma shift_range (p q : nat * nat) :
  p ∈ cells → q ∈ cells → (shift (p, q)).1 ∈ cells ∧ (shift (p, q)).2 ∈ cells.
Proof.
  rewrite !elem_of_cells. destruct p as [r1 c1], q as [r2 c2].
  unfold shift, new_coordinates. cbn [fst snd]. intros [? ?] [? ?].
  pose proof succ_mod5_lt. repeat case_decide; cbn [fst snd]; auto.
Qed.

(** A property of pairs of cells that holds on each of the 625 pairs. *)
Lemma cells_all (P : (nat * nat) * (nat * nat) → Prop)
    `{!∀ pq, Decision (P pq)} :
  bool_decide (Forall (λ p, Forall (λ q, P (p, q)) cells) cells) = true →
  ∀ p q, p ∈ cells → q ∈ cells → P (p, q).
Proof.
  intros Hall%bool_decide_eq_true p q Hp Hq.
  rewrite Forall_forall in Hall. specialize (Hall p Hp).
  rewrite Forall_forall in Hall. by apply Hall.
Qed.

Lemma shift_ten (p q : nat * nat) :
  p ∈ cells → q ∈ cells → Nat.iter 10 shift (p, q) = (p, q).
Proof.
  apply (cells_all (λ pq, Nat.iter 10 shift pq = pq)). vm_compute. reflexivity.
Qed.

Lemma shift_five (p q : nat * nat) :
  p ∈ cells → q ∈ cells → p.1 = q.1 ∨ p.2 = q.2 →
  Nat.iter 5 shift (p, q) = (p, q).
Proof.
  intros Hp Hq. revert p q Hp Hq.
  apply (cells_all (λ pq, pq.1.1 = pq.2.1 ∨ pq.1.2 = pq.2.2 →
                          Nat.iter 5 shift pq = pq)).
  vm_compute. reflexivity.
Qed.

Lemma shift_two (p q : nat * nat) :
  p ∈ cells → q ∈ cells → p.1 = q.1 ∨ p.2 = q.2 →
  Nat.iter 2 shift (p, q) ≠ (p, q).
Proof.
  intros Hp Hq. revert p q Hp Hq.
  apply (cells_all (λ pq, pq.1.1 = pq.2.1 ∨ pq.1.2 = pq.2.2 →
                          Nat.iter 2 shift pq ≠ pq)).
  vm_compute. reflexivity.
Qed.

(** Different cells are shifted to different cells. *)
Lemma shift_distinct (p q : nat * nat) :
  p ∈ cells → q ∈ cells → p ≠ q → (shift (p, q)).1 ≠ (shift (p, q)).2.
Proof.
  intros Hp Hq. revert p q Hp Hq.
  apply (cells_all (λ pq, pq.1 ≠ pq.2 → (shift pq).1 ≠ (shift pq).2)).
  vm_compute. reflexivity.
Qed.

Lemma shift_iter_range (n : nat) (p q : nat * nat) :
  p ∈ cells → q ∈ cells →
  (Nat.iter n shift (p, q)).1 ∈ cells ∧ (Nat.iter n shift (p, q)).2 ∈ cells.
Proof.
  intros Hp Hq. induction n as [|n [IH1 IH2]]; [done|]. rewrite Nat.iter_succ.
  destruct (Nat.iter n shift (p, q)) as [p' q']. by apply shift_range.
Qed.

Lemma shift_inj (p q p' q' : nat * nat) :
  p ∈ cells → q ∈ cells → p' ∈ cells → q' ∈ cells →
  shift (p, q) = shift (p', q') → (p, q) = (p', q').
Proof.
  intros Hp Hq Hp' Hq' Heq.
  rewrite <-(shift_ten p q), <-(shift_ten p' q') by done.
  change 10 with (9 + 1). rewrite !Nat.iter_add.
  change (Nat.iter 1 shift (p, q)) with (shift (p, q)).
  change (Nat.iter 1 shift (p', q')) with (shift (p', q')). by rewrite Heq.
Qed.

(** ** [encrypt_pair] on a grid of five rows of five cells *)

Lemma encrypt_pair_Ok_inv (grid : list (list N)) (digraph e : list N) :
  encrypt_pair grid digraph = Ok e →
  ∃ x y p q e1 e2,
    digraph !! 0 = Some x ∧ digraph !! 1 = Some y
    ∧ find_coordinates grid x = Ok p ∧ find_coordinates grid y = Ok q
    ∧ cell grid (shift (p, q)).1.1 (shift (p, q)).1.2 = Ok e1
    ∧ cell grid (shift (p, q)).2.1 (shift (p, q)).2.2 = Ok e2
    ∧ e = [e1; e2].
Proof.
  unfold encrypt_pair.
  intros (x & Hx%index_Ok & (y & Hy%index_Ok & (p & Hp & (q & Hq & Henc)%bind_Ok_inv
    )%bind_Ok_inv)%bind_Ok_inv)%bind_Ok_inv.
  exists x, y, p, q. unfold shift. cbn [fst snd].
  destruct (new_coordinates p q) as [[new_r1 new_c1] [new_r2 new_c2]].
  apply bind_Ok_inv in Henc as (e1 & He1 & (e2 & He2 & [= <-])%bind_Ok_inv).
  exists e1, e2. done.
Qed.

Lemma find_coordinates_Ok (grid : list (list N)) (ch : N) (p : nat * nat) :
  find_coordinates grid ch = Ok p → p ∈ cells ∧ cell grid p.1 p.2 = Ok ch.
Proof.
  destruct p as [r c]. intros (i & Hi & Hcell & _)%find_from_Ok.
  split; [by eapply list_elem_of_lookup_2|done].
Qed.

Section shape_encrypt.
Context (grid : list (list N)) (Hshape : grid5x5 grid).

Lemma elem_of_grid_find (x : N) :
  x ∈ mjoin grid ↔ ∃ p, find_coordinates grid x = Ok p.
Proof.
  split.
  - intros Hx. by destruct (find_coordinates_shape grid Hshape x) as [?|[_ ?]].
  - intros [p [[? ?]%elem_of_cells Hcell]%find_coordinates_Ok].
    apply (elem_of_grid_cell grid Hshape). eauto 10.
Qed.

(** With both letters in the grid [encrypt_pair] returns two letters of the
    grid; with one missing it raises [ValueError]. *)
Lemma encrypt_pair_shape (x y : N) :
  (x ∈ mjoin grid → y ∈ mjoin grid →
   ∃ e1 e2, encrypt_pair grid [x; y] = Ok [e1; e2]
            ∧ e1 ∈ mjoin grid ∧ e2 ∈ mjoin grid)
  ∧ (x ∉ mjoin grid ∨ y ∉ mjoin grid →
     encrypt_pair grid [x; y] = Raise ValueError).
Proof.
  unfold encrypt_pair. cbn [index lookup list_lookup]. rewrite !bind_Ok.
  split.
  - intros [p Hp]%elem_of_grid_find [q Hq]%elem_of_grid_find.
    rewrite Hp, bind_Ok, Hq, bind_Ok.
    apply find_coordinates_Ok in Hp as [Hp _].
    apply find_coordinates_Ok in Hq as [Hq _].
    destruct (shift_range p q Hp Hq) as [H1 H2]. unfold shift in H1, H2.
    cbn [fst snd] in H1, H2.
    destruct (new_coordinates p q) as [[new_r1 new_c1] [new_r2 new_c2]].
    apply elem_of_cells in H1 as [? ?], H2 as [? ?]. cbn [fst snd] in *.
    destruct (cell_defined_shape grid Hshape new_r1 new_c1) as [e1 He1];
      [done..|].
    destruct (cell_defined_shape grid Hshape new_r2 new_c2) as [e2 He2];
      [done..|].
    exists e1, e2. rewrite He1, bind_Ok, He2, bind_Ok.
    split_and!; [done|apply (elem_of_grid_cell grid Hshape); eauto 10..].
  - intros Hmiss.
    destruct (find_coordinates_shape grid Hshape x) as [[p Hp]|[Hx ?]];
      [|by rewrite Hx].
    rewrite Hp, bind_Ok.
    destruct (find_coordinates_shape grid Hshape y) as [[q Hq]|[Hy ?]];
      [|by rewrite Hy].
    destruct Hmiss as [Hmiss|Hmiss]; destruct Hmiss;
      apply elem_of_grid_find; eauto.
Qed.
End shape_encrypt.

(** ** Repeated encryption of a digraph *)

Section grid_times.
Context (grid : list (list N)) (Hgrid : grid25 grid).

Lemma cell_cells (p : nat * nat) (x : N) :
  cell grid p.1 p.2 = Ok x → p ∈ cells.
Proof. intros ?%(cell_range grid Hgrid). by apply elem_of_cells. Qed.

Lemma cells_cell (p : nat * nat) : p ∈ cells → ∃ x, cell grid p.1 p.2 = Ok x.
Proof. intros [? ?]%elem_of_cells. by apply (cell_defined grid Hgrid). Qed.

Lemma encrypt_pair_shift (p q : nat * nat) (x y e1 e2 : N) :
  cell grid p.1 p.2 = Ok x → cell grid q.1 q.2 = Ok y →
  cell grid (shift (p, q)).1.1 (shift (p, q)).1.2 = Ok e1 →
  cell grid (shift (p, q)).2.1 (shift (p, q)).2.2 = Ok e2 →
  encrypt_pair grid [x; y] = Ok [e1; e2].
Proof.
  destruct p as [r1 c1], q as [r2 c2]. unfold shift. cbn [fst snd].
  intros Hx Hy He1 He2. rewrite (encrypt_pair_cells grid Hgrid _ _ _ _ _ _ Hx Hy).
  destruct (new_coordinates (r1, c1) (r2, c2)) as [[? ?] [? ?]].
  cbn [fst snd] in *. by rewrite He1, bind_Ok, He2, bind_Ok.
Qed.

(** [n] encryptions of two letters of the grid give the letters found
    after [n] shifts of their coordinates. *)
Lemma encrypt_pair_times_shift (n : nat) (p q : nat * nat) (x y : N) :
  cell grid p.1 p.2 = Ok x → cell grid q.1 q.2 = Ok y →
  ∃ e1 e2,
    encrypt_pair_times n grid [x; y] = Ok [e1; e2]
    ∧ cell grid (Nat.iter n shift (p, q)).1.1 (Nat.iter n shift (p, q)).1.2
      = Ok e1
    ∧ cell grid (Nat.iter n shift (p, q)).2.1 (Nat.iter n shift (p, q)).2.2
      = Ok e2.
Proof.
  intros Hx Hy. induction n as [|n (e1 & e2 & Htimes & He1 & He2)].
  { exists x, y. done. }
  cbn [encrypt_pair_times]. rewrite Htimes, bind_Ok, Nat.iter_succ.
  destruct (shift_iter_range n p q) as [Hp' Hq']; [by eapply cell_cells..|].
  destruct (Nat.iter n shift (p, q)) as [p' q']. cbn [fst snd] in *.
  destruct (shift_range p' q' Hp' Hq') as [[e1' He1']%cells_cell
                                            [e2' He2']%cells_cell].
  exists e1', e2'. split_and!; [|done..]. by eapply encrypt_pair_shift.
Qed.

Lemma elem_of_grid25_cell (x : N) :
  x ∈ mjoin grid → ∃ p, cell grid p.1 p.2 = Ok x.
Proof.
  intros (r & c & Hx)%(cell_elem_of grid Hgrid). by exists (r, c).
Qed.

Lemma cell_inj_pair (p q : nat * nat) (x : N) :
  cell grid p.1 p.2 = Ok x → cell grid q.1 q.2 = Ok x → p = q.
Proof.
  destruct p, q. cbn [fst snd]. intros H1 H2.
  by destruct (cell_inj grid Hgrid _ _ _ _ _ H1 H2) as [-> ->].
Qed.
End grid_times.

(** ** Lists of calls *)

Lemma mapM_result_Ok {A B} (f : A → result B) (l : list A) (k : list B) :
  mapM f l = Ok k ↔ Forall2 (λ x y, f x = Ok y) l k.
Proof.
  revert k. induction l as [|x l IH]; intros k; cbn [mapM].
  - split.
    + intros Hk. injection Hk as <-. constructor.
    + by inv 1.
  - split.
    + intros (y & Hy & (k' & Hk' & [= <-])%bind_Ok_inv)%bind_Ok_inv.
      constructor; [done|by apply IH].
    + inv 1 as [|? y ? k' Hy Hk']. apply IH in Hk'.
      by rewrite Hy, bind_Ok, Hk'.
Qed.

Lemma mapM_result_outcome {A B} (f : A → result B) (e : exn) (l : list A) :
  Forall (λ x, (∃ y, f x = Ok y) ∨ f x = Raise e) l →
  (∃ k, mapM f l = Ok k) ∨ mapM f l = Raise e.
Proof.
  induction 1 as [|x l [[y Hy]|Hx] _ IH]; cbn [mapM].
  - left. by eexists.
  - rewrite Hy, bind_Ok. destruct IH as [[k ->] | ->]; [left|by right].
    by eexists.
  - right. by rewrite Hx.
Qed.

Lemma Forall2_length2_join {A} (ds cs : list (list A)) (P : list A → list A → Prop) :
  Forall2 P ds cs → Forall (λ c, length c = 2) cs →
  length (mjoin cs) = 2 * length ds
  ∧ ∀ i d, ds !! i = Some d →
      ∃ c, cs !! i = Some c ∧ P d c
           ∧ slice (mjoin cs) (2 * i) (2 * i + 2) = c.
Proof.
  induction 1 as [|d c ds cs Hdc _ IH]; intros Hlen.
  { split; [done|]. intros i d Hd. by rewrite lookup_nil in Hd. }
  apply Forall_cons in Hlen as [Hc Hlen]. destruct (IH Hlen) as [IHlen IHi].
  destruct c as [|a [|b [|? ?]]]; try done.
  change (mjoin ([a; b] :: cs)) with (a :: b :: mjoin cs).
  split; [cbn [length]; lia|].
  intros [|i] d' Hd'.
  - injection Hd' as <-. exists [a; b]. done.
  - destruct (IHi i d' Hd') as (c' & Hc' & HP & Hslice).
    exists c'. split_and!; [done..|]. rewrite <-Hslice. unfold slice.
    replace (2 * S i) with (S (S (2 * i))) by lia.
    replace (S (S (2 * i)) + 2 - S (S (2 * i))) with (2 * i + 2 - 2 * i)
      by lia. done.
Qed.

(** X7.  When [find_coordinates] returns [(r, c)], both indices are below
    5, the cell holds the letter, and every cell the two loops visit before
    it exists and holds another letter: the result is the first match in
    row-major order.  No assumption on the grid. *)
Theorem find_coordinates_first_match (grid : list (list char)) (ch : char)
    (r c : nat) :
  find_coordinates grid ch = Ok (r, c) →
  r < 5 ∧ c < 5 ∧ cell grid r c = Ok ch
  ∧ ∀ r' c', c' < 5 → scanned_before r' c' r c →
      ∃ x, cell grid r' c' = Ok x ∧ x ≠ ch.
Proof.
  intros (i & Hi & Hcell & Hbefore)%find_from_Ok.
  assert ((r, c) ∈ cells) as [Hr Hc]%elem_of_cells
    by (by eapply list_elem_of_lookup_2).
  cbn [fst snd] in Hr, Hc. split_and!; [done..|].
  pose proof (NoDup_lookup _ _ _ _ NoDup_cells Hi (cells_lookup_cell r c Hr Hc))
    as ->.
  intros r' c' Hc' Hscan.
  apply (Hbefore (r' * 5 + c') (r', c')).
  - destruct Hscan as [?|[-> ?]]; lia.
  - apply cells_lookup_cell; [|done]. destruct Hscan as [?|[-> ?]]; lia.
Qed.

Lemma find_coordinates_first_match_witness :
  1 < 5 ∧ 2 < 5 ∧ cell grid_monarchy 1 2 = Ok (ord "Y")
  ∧ ∀ r' c', c' < 5 → scanned_before r' c' 1 2 →
      ∃ x, cell grid_monarchy r' c' = Ok x ∧ x ≠ ord "Y".
Proof.
  apply (find_coordinates_first_match grid_monarchy (ord "Y") 1 2).
  reflexivity.
Defined.

(** X8.  On a grid of five rows of five cells, [find_coordinates] returns
    coordinates for a letter the grid holds and raises [ValueError] for a
    letter it does not hold. *)
Theorem find_coordinates_missing_letter (grid : list (list char))
    (ch : char) :
  grid5x5 grid →
  (ch ∈ mjoin grid → ∃ p, find_coordinates grid ch = Ok p)
  ∧ (ch ∉ mjoin grid → find_coordinates grid ch = Raise ValueError).
Proof.
  intros Hshape. split.
  - by intros ?%(elem_of_grid_find grid Hshape).
  - intros Hch.
    destruct (find_coordinates_shape grid Hshape ch) as [Hp|[? _]]; [|done].
    by apply (elem_of_grid_find grid Hshape) in Hp.
Qed.

Lemma grid5x5_monarchy : grid5x5 grid_monarchy.
Proof. split; [reflexivity|by repeat constructor]. Defined.

Lemma find_coordinates_missing_letter_witness :
  find_coordinates grid_monarchy (ord "J") = Raise ValueError.
Proof.
  apply (find_coordinates_missing_letter grid_monarchy (ord "J")).
  - exact grid5x5_monarchy.
  - apply (bool_decide_unpack _). vm_compute. exact I.
Defined.

(** X9.  On a grid of fewer than five rows, each of five cells, that does
    not hold the letter, [find_coordinates] runs past the last row and
    raises [IndexError]. *)
Theorem find_coordinates_short_grid (grid : list (list char)) (ch : char) :
  length grid < 5 →
  Forall (λ row, length row = 5) grid →
  ch ∉ mjoin grid →
  find_coordinates grid ch = Raise IndexError.
Proof.
  intros Hlen Hrows Hch. unfold find_coordinates.
  rewrite <-(take_drop (length grid * 5) cells).
  rewrite (drop_S cells (length grid, 0) (length grid * 5))
    by (rewrite <-(Nat.add_0_r (_ * 5)); apply cells_lookup_cell; lia).
  rewrite find_from_skip.
  - cbn [find_from]. unfold cell, index.
    by rewrite (lookup_ge_None_2 grid (length grid)) by lia.
  - apply Forall_forall. intros [r c] [j Hj]%list_elem_of_lookup_1.
    apply lookup_take_Some in Hj as [Hj Hlt]. cbn [fst snd].
    rewrite cells_lookup in Hj by lia. injection Hj as <- <-.
    assert (j / 5 < length grid) as Hr by (apply Nat.Div0.div_lt_upper_bound; lia).
    destruct (lookup_lt_is_Some_2 grid (j / 5) Hr) as [row Hrow].
    rewrite Forall_forall in Hrows.
    pose proof (Hrows row (list_elem_of_lookup_2 _ _ _ Hrow)) as Hrowlen.
    destruct (lookup_lt_is_Some_2 row (j mod 5)) as [x Hx].
    { rewrite Hrowlen. by apply Nat.mod_upper_bound. }
    exists x. split; [apply cell_Ok; eauto|]. intros ->. apply Hch.
    apply list_elem_of_join. exists row.
    eauto using list_elem_of_lookup_2.
Qed.

Lemma find_coordinates_short_grid_witness :
  find_coordinates [py "MONAR"; py "CHYBD"] (ord "Z") = Raise IndexError.
Proof.
  apply find_coordinates_short_grid.
  - cbn. lia.
  - by repeat constructor.
  - apply (bool_decide_unpack _). vm_compute. exact I.
Defined.

(** X10.  On a grid of five rows of five cells, [encrypt_pair] turns two
    letters of the grid into two letters of the grid, and raises
    [ValueError] when one of the two letters is not in the grid. *)
Theorem encrypt_pair_missing_letter (grid : list (list char)) (x y : char) :
  grid5x5 grid →
  (x ∈ mjoin grid → y ∈ mjoin grid →
   ∃ e1 e2, encrypt_pair grid [x; y] = Ok [e1; e2]
            ∧ e1 ∈ mjoin grid ∧ e2 ∈ mjoin grid)
  ∧ (x ∉ mjoin grid ∨ y ∉ mjoin grid →
     encrypt_pair grid [x; y] = Raise ValueError).
Proof. intros Hshape. by apply encrypt_pair_shape. Qed.

Lemma encrypt_pair_missing_letter_witness :
  encrypt_pair grid_monarchy (py "AJ") = Raise ValueError.
Proof.
  apply (encrypt_pair_missing_letter grid_monarchy (ord "A") (ord "J")).
  - exact grid5x5_monarchy.
  - right. apply (bool_decide_unpack _). vm_compute. exact I.
Defined.

(** Two digraphs encrypted to the same digraph are equal. *)
Lemma encrypt_pair_inj (grid : list (list char))
    (x y x' y' : char) (e : str) :
  grid25 grid →
  encrypt_pair grid [x; y] = Ok e →
  encrypt_pair grid [x'; y'] = Ok e →
  x = x' ∧ y = y'.
Proof.
  intros Hgrid
    (? & ? & p & q & e1 & e2 & [= <-] & [= <-] & Hp & Hq & He1 & He2 & ->)
      %encrypt_pair_Ok_inv
    (? & ? & p' & q' & e1' & e2' & [= <-] & [= <-] & Hp' & Hq' & He1' & He2'
       & [= <- <-])%encrypt_pair_Ok_inv.
  apply find_coordinates_Ok in Hp as [Hp Hx], Hq as [Hq Hy].
  apply find_coordinates_Ok in Hp' as [Hp' Hx'], Hq' as [Hq' Hy'].
  assert (shift (p, q) = shift (p', q')) as Heq.
  { pose proof (cell_inj_pair grid Hgrid _ _ _ He1 He1').
    pose proof (cell_inj_pair grid Hgrid _ _ _ He2 He2').
    destruct (shift (p, q)), (shift (p', q')). cbn [fst snd] in *. congruence. }
  apply shift_inj in Heq; [|done..]. injection Heq as <- <-.
  split; congruence.
Qed.

(** Two different letters are encrypted to two different letters. *)
Lemma encrypt_pair_distinct (grid : list (list char)) (x y e1 e2 : char) :
  grid25 grid →
  encrypt_pair grid [x; y] = Ok [e1; e2] → x ≠ y → e1 ≠ e2.
Proof.
  intros Hgrid
    (? & ? & p & q & e1' & e2' & [= <-] & [= <-] & Hp & Hq & He1 & He2
       & [= <- <-])%encrypt_pair_Ok_inv Hxy <-.
  apply find_coordinates_Ok in Hp as [Hp Hx], Hq as [Hq Hy].
  apply (shift_distinct p q Hp Hq); [congruence|].
  by eapply cell_inj_pair.
Qed.

Lemma encrypt_pair_Ok_length (grid : list (list char)) (digraph e : str) :
  encrypt_pair grid digraph = Ok e → length e = 2.
Proof.
  by intros (? & ? & ? & ? & ? & ? & _ & _ & _ & _ & _ & _ & ->)
    %encrypt_pair_Ok_inv.
Qed.

(** X11.  On a grid of 25 distinct letters, two digraphs that
    [encrypt_pair] turns into the same digraph are the same digraph: the
    plaintext pair can be recovered from the ciphertext pair. *)
Theorem encrypt_pair_injective (grid : list (list char))
    (x y x' y' : char) (e : str) :
  grid25 grid →
  encrypt_pair grid [x; y] = Ok e →
  encrypt_pair grid [x'; y'] = Ok e →
  x = x' ∧ y = y'.
Proof. apply encrypt_pair_inj. Qed.

Lemma encrypt_pair_injective_witness :
  ord "H" = ord "H" ∧ ord "E" = ord "E".
Proof.
  apply (encrypt_pair_injective grid_monarchy (ord "H") (ord "E")
           (ord "H") (ord "E") (py "CF")).
  - exact grid25_monarchy.
  - reflexivity.
  - reflexivity.
Defined.

(** X12.  On a grid of 25 distinct letters, ten encryptions in a row give
    any digraph of grid letters back.  For two letters in the same row or
    in the same column five encryptions give the digraph back, and two do
    not. *)
Theorem encrypt_pair_ten_times (grid : list (list char)) (x y : char) :
  grid25 grid →
  x ∈ mjoin grid → y ∈ mjoin grid →
  encrypt_pair_times 10 grid [x; y] = Ok [x; y]
  ∧ ∀ r1 c1 r2 c2,
      cell grid r1 c1 = Ok x → cell grid r2 c2 = Ok y →
      r1 = r2 ∨ c1 = c2 →
      encrypt_pair_times 5 grid [x; y] = Ok [x; y]
      ∧ encrypt_pair_times 2 grid [x; y] ≠ Ok [x; y].
Proof.
  intros Hgrid [p Hx]%(elem_of_grid25_cell grid Hgrid)
    [q Hy]%(elem_of_grid25_cell grid Hgrid).
  pose proof (cell_cells grid Hgrid _ _ Hx) as Hp.
  pose proof (cell_cells grid Hgrid _ _ Hy) as Hq.
  split.
  - destruct (encrypt_pair_times_shift grid Hgrid 10 p q x y Hx Hy)
      as (e1 & e2 & -> & He1 & He2).
    rewrite shift_ten in He1, He2 by done. cbn [fst snd] in *. congruence.
  - intros r1 c1 r2 c2 Hx' Hy' Hline.
    pose proof (cell_inj_pair grid Hgrid p (r1, c1) x Hx Hx') as ->.
    pose proof (cell_inj_pair grid Hgrid q (r2, c2) y Hy Hy') as ->.
    split.
    + destruct (encrypt_pair_times_shift grid Hgrid 5 _ _ x y Hx Hy)
        as (e1 & e2 & -> & He1 & He2).
      rewrite shift_five in He1, He2 by done. cbn [fst snd] in *. congruence.
    + destruct (encrypt_pair_times_shift grid Hgrid 2 _ _ x y Hx Hy)
        as (e1 & e2 & -> & He1 & He2).
      intros [= -> ->].
      pose proof (cell_inj_pair grid Hgrid _ _ _ He1 Hx) as H1.
      pose proof (cell_inj_pair grid Hgrid _ _ _ He2 Hy) as H2.
      revert H1 H2. generalize (shift_two (r1, c1) (r2, c2) Hp Hq Hline).
      destruct (Nat.iter 2 shift (r1, c1, (r2, c2))). cbn [fst snd].
      congruence.
Qed.

Lemma encrypt_pair_ten_times_witness :
  encrypt_pair_times 10 grid_monarchy (py "AR") = Ok (py "AR").
Proof.
  apply (encrypt_pair_ten_times grid_monarchy (ord "A") (ord "R")).
  - exact grid25_monarchy.
  - apply (bool_decide_unpack _). vm_compute. exact I.
  - apply (bool_decide_unpack _). vm_compute. exact I.
Defined.

(** ** More on the digraphs of [prepare_message] *)

Lemma pair_up_pairs (cleaned : list N) :
  Forall (λ dg, ∃ a b, dg = [a; b] ∧ a ≠ b) (pair_up cleaned).
Proof.
  apply (pair_up_ind (λ _ ds, Forall (λ dg, ∃ a b, dg = [a; b] ∧ a ≠ b) ds)).
  - constructor.
  - intros a. apply Forall_singleton. exists a, (filler a).
    split; [done|]. intros Heq. by apply (filler_neq a).
  - intros a rest IH. constructor; [|done]. exists a, (filler a).
    split; [done|]. intros Heq. by apply (filler_neq a).
  - intros a b rest Hab IH. constructor; [|done]. by exists a, b.
Qed.

Lemma pair_up_mjoin (ds : list (list N)) :
  Forall (λ dg, ∃ a b, dg = [a; b] ∧ a ≠ b) ds → pair_up (mjoin ds) = ds.
Proof.
  induction 1 as [|dg ds (a & b & -> & Hab) _ IH]; [done|].
  change (mjoin ([a; b] :: ds)) with (a :: b :: mjoin ds).
  by rewrite pair_up_cons2, decide_False, IH.
Qed.

Lemma pair_up_sublist (cleaned : list N) :
  cleaned `sublist_of` mjoin (pair_up cleaned)
  ∧ length cleaned ≤ 2 * length (pair_up cleaned)
  ∧ length (pair_up cleaned) ≤ length cleaned.
Proof.
  apply (pair_up_ind (λ l ds,
    l `sublist_of` mjoin ds ∧ length l ≤ 2 * length ds
    ∧ length ds ≤ length l)).
  - split_and!; [constructor|done..].
  - intros a. split_and!; [|cbn; lia..].
    change (mjoin [[a; filler a]]) with [a; filler a].
    apply sublist_skip, sublist_nil_l.
  - intros a rest (IHs & IH1 & IH2). split_and!; [|cbn in *; lia..].
    change (mjoin ([a; filler a] :: pair_up (a :: rest)))
      with (a :: filler a :: mjoin (pair_up (a :: rest))).
    by apply sublist_skip, sublist_cons.
  - intros a b rest Hab (IHs & IH1 & IH2). split_and!; [|cbn in *; lia..].
    change (mjoin ([a; b] :: pair_up rest))
      with (a :: b :: mjoin (pair_up rest)).
    by do 2 apply sublist_skip.
Qed.

Lemma no_repeat_tail (a : N) (text : list N) :
  no_repeat (a :: text) → no_repeat text.
Proof. intros Hno i b Hi. by apply (Hno (S i) b). Qed.

Lemma pair_up_no_repeat (cleaned : list N) :
  no_repeat cleaned →
  (Nat.Even (length cleaned) → mjoin (pair_up cleaned) = cleaned)
  ∧ (Nat.Odd (length cleaned) →
     ∃ a, last cleaned = Some a
          ∧ mjoin (pair_up cleaned) = cleaned ++ [filler a]).
Proof.
  apply (pair_up_ind (λ l ds, no_repeat l →
    (Nat.Even (length l) → mjoin ds = l)
    ∧ (Nat.Odd (length l) → ∃ a, last l = Some a ∧ mjoin ds = l ++ [filler a]))).
  - intros _. split; [done|]. intros [k Hk]. cbn in Hk. lia.
  - intros a _. split; [intros [k Hk]; cbn in Hk; lia|]. intros _.
    by exists a.
  - intros a rest _ Hno. by destruct (Hno 0 a).
  - intros a b rest Hab IH Hno.
    destruct (IH (no_repeat_tail _ _ (no_repeat_tail _ _ Hno))) as [IHe IHo].
    change (mjoin ([a; b] :: pair_up rest))
      with (a :: b :: mjoin (pair_up rest)).
    split.
    + intros [k Hk]. rewrite IHe; [done|]. exists (k - 1). cbn in Hk. lia.
    + intros [k Hk]. destruct IHo as (z & Hlast & ->).
      { exists (k - 1). cbn in Hk. lia. }
      exists z. split; [|done]. destruct rest; [done|]. done.
Qed.

(** Under a database that fixes the capitals, a text over the alphabet is
    its own cleaned form. *)
Lemma clean_alphabet `{UnicodeData} (text : list N) :
  capitals_fixed _ → Forall (λ c, c ∈ alphabet) text → clean text = text.
Proof.
  intros Hfix Htext. unfold clean, str_upper, replace.
  induction Htext as [|c text Hc _ IH]; [done|].
  destruct (Hfix c Hc) as [Halpha Hupper].
  cbn [mbind list_bind]. rewrite Hupper. cbn [app].
  rewrite filter_cons_True by (by apply Is_true_true).
  cbn [fmap list_fmap]. rewrite decide_False.
  - f_equal. exact IH.
  - apply elem_of_alphabet in Hc as [_ ?]. done.
Qed.

Lemma capitals_fixed_latin1 : capitals_fixed latin1.
Proof.
  intros c Hc. revert c Hc. apply Forall_forall.
  apply (bool_decide_unpack _). vm_compute. exact I.
Qed.

(** X3.  For a text whose alphabetic characters are among [A]..[Z] once
    upper-cased, every letter of every digraph [prepare_message] returns is
    one of the 25 letters of the alphabet. *)
Theorem prepare_message_AZ_text {U : UnicodeData} (message_text : str) :
  Forall (λ c, isalpha c → is_AZ c) (str_upper message_text) →
  ∃ digraphs, prepare_message message_text = Ok digraphs
    ∧ Forall (Forall (λ c, c ∈ alphabet)) digraphs.
Proof. apply prepare_message_in_alphabet. Qed.

Lemma prepare_message_AZ_text_witness :
  ∃ digraphs, prepare_message (U := latin1) (py "Hello, John!") = Ok digraphs
    ∧ Forall (Forall (λ c, c ∈ alphabet)) digraphs.
Proof.
  apply (prepare_message_AZ_text (U := latin1) (py "Hello, John!")).
  unfold is_AZ. apply (bool_decide_unpack _). vm_compute. exact I.
Defined.

(** X4.  [prepare_message] loses no letter and keeps their order: the
    cleaned text is a subsequence of the digraphs joined.  The number of
    digraphs is at least half the length of the cleaned text and at most
    its length. *)
Theorem prepare_message_keeps_text {U : UnicodeData} (message_text : str) :
  ∃ digraphs, prepare_message message_text = Ok digraphs
    ∧ clean message_text `sublist_of` mjoin digraphs
    ∧ length (clean message_text) ≤ 2 * length digraphs
    ∧ length digraphs ≤ length (clean message_text).
Proof.
  exists (pair_up (clean message_text)).
  split; [apply prepare_message_pair_up|apply pair_up_sublist].
Qed.

(** X5.  When no letter of the cleaned text equals the letter after it,
    [prepare_message] inserts nothing between letters: the digraphs joined
    are the cleaned text, followed by one filler for its last letter when
    its length is odd. *)
Theorem prepare_message_without_repeats {U : UnicodeData}
    (message_text : str) :
  no_repeat (clean message_text) →
  ∃ digraphs, prepare_message message_text = Ok digraphs
    ∧ (Nat.Even (length (clean message_text)) →
       mjoin digraphs = clean message_text)
    ∧ (Nat.Odd (length (clean message_text)) →
       ∃ a, last (clean message_text) = Some a
            ∧ mjoin digraphs = clean message_text ++ [filler a]).
Proof.
  intros Hno. exists (pair_up (clean message_text)).
  split; [apply prepare_message_pair_up|by apply pair_up_no_repeat].
Qed.

Lemma prepare_message_without_repeats_witness :
  ∃ digraphs,
    prepare_message (U := latin1) (py "WE ARE NOT SAFE") = Ok digraphs
    ∧ (Nat.Even (length (clean (U := latin1) (py "WE ARE NOT SAFE"))) →
       mjoin digraphs = clean (U := latin1) (py "WE ARE NOT SAFE"))
    ∧ (Nat.Odd (length (clean (U := latin1) (py "WE ARE NOT SAFE"))) →
       ∃ a, last (clean (U := latin1) (py "WE ARE NOT SAFE")) = Some a
            ∧ mjoin digraphs
              = clean (U := latin1) (py "WE ARE NOT SAFE") ++ [filler a]).
Proof.
  apply (prepare_message_without_repeats (U := latin1) (py "WE ARE NOT SAFE")).
  intros i a Hi. apply lookup_lt_Some in Hi as Hlt.
  revert a Hi. do 12 (destruct i as [|i]; [by intros ? [= <-]|]).
  vm_compute in Hlt. lia.
Defined.

(** X6.  Under a character database for which the 25 letters are
    alphabetic and their own upper-case form, and for a text whose
    alphabetic characters are among [A]..[Z] once upper-cased, preparing
    the joined digraphs of the text again returns the same digraphs. *)
Theorem prepare_message_of_prepared {U : UnicodeData} (message_text : str)
    (digraphs : list str) :
  capitals_fixed U →
  Forall (λ c, isalpha c → is_AZ c) (str_upper message_text) →
  prepare_message message_text = Ok digraphs →
  prepare_message (mjoin digraphs) = Ok digraphs.
Proof.
  intros Hfix HAZ Hprep.
  destruct (prepare_message_in_alphabet message_text HAZ) as (ds & Hds & Hletters).
  rewrite Hprep in Hds. injection Hds as <-.
  rewrite prepare_message_pair_up in Hprep. injection Hprep as <-.
  rewrite prepare_message_pair_up, clean_alphabet; [|done|].
  - by rewrite pair_up_mjoin by apply pair_up_pairs.
  - apply Forall_forall. intros c (dg & Hc & Hdg)%list_elem_of_join.
    rewrite Forall_forall in Hletters. specialize (Hletters dg Hdg).
    rewrite Forall_forall in Hletters. by apply Hletters.
Qed.

Lemma prepare_message_of_prepared_witness :
  prepare_message (U := latin1) (py "HELXLO")
  = Ok [py "HE"; py "LX"; py "LO"].
Proof.
  apply (prepare_message_of_prepared (U := latin1) (py "HELLO")
           [py "HE"; py "LX"; py "LO"]).
  - exact capitals_fixed_latin1.
  - unfold is_AZ. apply (bool_decide_unpack _). vm_compute. exact I.
  - reflexivity.
Defined.

(** X1.  Every grid [create_grid] returns has five rows of five cells
    holding 25 different characters: row by row, the first 25 of the first
    occurrences of the normalised keyword followed by the letters of the
    alphabet that are not among them. *)
Theorem create_grid_always_5x5 {U : UnicodeData} (keyword : str)
    (grid : list (list char)) :
  create_grid keyword = Ok grid →
  grid25 grid
  ∧ mjoin grid =
      take 25 (first_occurrences (normalize_keyword keyword)
               ++ filter (λ c, c ∉ first_occurrences (normalize_keyword keyword))
                    alphabet).
Proof.
  intros Hgrid. split; [by eapply create_grid_grid25|].
  destruct (decide (filter (λ c, isalpha c) keyword = [])) as [Hk|Hk].
  { by rewrite create_grid_raises in Hgrid. }
  rewrite create_grid_returns in Hgrid by done. injection Hgrid as <-.
  change (mjoin ((λ i, slice (grid_letters keyword) i (i + 5))
                   <$> [0; 5; 10; 15; 20])
          = take 25 (first_occurrences (normalize_keyword keyword)
               ++ filter (λ c, c ∉ first_occurrences (normalize_keyword keyword))
                    alphabet)).
  by rewrite mjoin_slices, grid_letters_eq.
Qed.

Lemma create_grid_always_5x5_witness :
  grid25 grid_monarchy
  ∧ mjoin grid_monarchy =
      take 25 (first_occurrences (normalize_keyword (U := latin1) (py "Monarchy!"))
               ++ filter (λ c, c ∉ first_occurrences
                                     (normalize_keyword (U := latin1)
                                        (py "Monarchy!")))
                    alphabet).
Proof.
  apply (create_grid_always_5x5 (U := latin1) (py "Monarchy!") grid_monarchy).
  reflexivity.
Defined.

(** X2.  For a keyword with an alphabetic character whose alphabetic
    characters are among [A]..[Z] once upper-cased, [create_grid] returns a
    grid that holds each of the 25 letters of the alphabet exactly once:
    the first occurrences of the keyword letters, then the other letters in
    alphabet order. *)
Theorem create_grid_AZ_keyword {U : UnicodeData} (keyword : str) :
  Forall (λ c, isalpha c → is_AZ c) (str_upper keyword) →
  filter (λ c, isalpha c) keyword ≠ [] →
  ∃ grid, create_grid keyword = Ok grid
    ∧ grid25 grid
    ∧ mjoin grid ≡ₚ alphabet
    ∧ mjoin grid =
        first_occurrences (normalize_keyword keyword)
        ++ filter (λ c, c ∉ first_occurrences (normalize_keyword keyword))
             alphabet.
Proof. apply create_grid_complete. Qed.

Lemma create_grid_AZ_keyword_witness :
  ∃ grid, create_grid (U := latin1) (py "balloon") = Ok grid
    ∧ grid25 grid
    ∧ mjoin grid ≡ₚ alphabet
    ∧ mjoin grid =
        first_occurrences (normalize_keyword (U := latin1) (py "balloon"))
        ++ filter (λ c, c ∉ first_occurrences
                              (normalize_keyword (U := latin1) (py "balloon")))
             alphabet.
Proof.
  apply (create_grid_AZ_keyword (U := latin1) (py "balloon")).
  - unfold is_AZ. apply (bool_decide_unpack _). vm_compute. exact I.
  - vm_compute. discriminate.
Defined.

(** ** The whole encryption *)

(** With the grid built, [playfair_encrypt] encrypts the digraphs one by
    one and joins the results. *)
Lemma playfair_encrypt_grid {U : UnicodeData} (keyword message_text : list N)
    (grid : list (list N)) :
  create_grid keyword = Ok grid →
  playfair_encrypt keyword message_text =
    (ciphertext_digraphs ← mapM (encrypt_pair grid)
                              (pair_up (clean message_text));
     Ok (mjoin ciphertext_digraphs)).
Proof.
  intros Hgrid. unfold playfair_encrypt.
  rewrite Hgrid, bind_Ok, prepare_message_pair_up, bind_Ok.
  case_bool_decide as Hempty; [|done]. by rewrite Hempty.
Qed.

Lemma playfair_encrypt_Ok_inv {U : UnicodeData}
    (keyword message_text c : list N) :
  playfair_encrypt keyword message_text = Ok c →
  ∃ grid cs,
    create_grid keyword = Ok grid ∧ grid25 grid
    ∧ Forall2 (λ d e, encrypt_pair grid d = Ok e)
        (pair_up (clean message_text)) cs
    ∧ Forall (λ e, length e = 2) cs
    ∧ c = mjoin cs.
Proof.
  intros Henc. destruct (create_grid keyword) as [grid|e|] eqn:Hgrid;
    [|by unfold playfair_encrypt in Henc; rewrite Hgrid in Henc..].
  rewrite (playfair_encrypt_grid _ _ grid Hgrid) in Henc.
  apply bind_Ok_inv in Henc as (cs & Hcs%mapM_result_Ok & [= <-]).
  exists grid, cs. split_and!; [done|by eapply create_grid_grid25|done| |done].
  eapply Forall2_Forall_r; [exact Hcs|]. apply Forall_forall.
  intros d _ e. apply encrypt_pair_Ok_length.
Qed.

Lemma mjoin_length2_inj {A} (cs cs' : list (list A)) :
  Forall (λ e, length e = 2) cs → Forall (λ e, length e = 2) cs' →
  mjoin cs = mjoin cs' → cs = cs'.
Proof.
  intros Hcs. revert cs'. induction Hcs as [|e cs He _ IH]; intros cs' Hcs' Heq.
  - destruct Hcs' as [|e' cs' He' _]; [done|].
    by destruct e' as [|? [|? ?]].
  - destruct Hcs' as [|e' cs' He' Hcs'].
    { by destruct e as [|? [|? ?]]. }
    destruct e as [|a [|b [|? ?]]], e' as [|a' [|b' [|? ?]]]; try done.
    injection Heq as -> -> Heq. f_equal. by apply IH.
Qed.

(** [playfair_encrypt] returns or raises [ValueError]. *)
Lemma playfair_encrypt_only_ValueError_aux {U : UnicodeData}
    (keyword message_text : str) :
  (∃ ciphertext, playfair_encrypt keyword message_text = Ok ciphertext)
  ∨ playfair_encrypt keyword message_text = Raise ValueError.
Proof.
  destruct (decide (filter (λ c, isalpha c) keyword = [])) as [Hk|Hk].
  { right. unfold playfair_encrypt. by rewrite create_grid_raises. }
  pose proof (create_grid_returns keyword Hk) as Hgrid.
  remember ((λ i, slice (grid_letters keyword) i (i + 5))
              <$> [0; 5; 10; 15; 20]) as grid eqn:Heq. clear Heq.
  pose proof (create_grid_grid25 _ _ Hgrid) as Hgrid25.
  rewrite (playfair_encrypt_grid _ _ _ Hgrid).
  destruct (mapM_result_outcome (encrypt_pair grid) ValueError
              (pair_up (clean message_text))) as [[cs Hcs]|Hraise].
  - eapply Forall_impl; [apply pair_up_pairs|].
    intros dg (a & b & -> & _).
    destruct (encrypt_pair_shape _ (grid25_grid5x5 _ Hgrid25) a b)
      as [Hin Hout].
    destruct (decide (a ∈ mjoin grid)) as [Ha|Ha];
      [|right; apply Hout; by left].
    destruct (decide (b ∈ mjoin grid)) as [Hb|Hb];
      [|right; apply Hout; by right].
    left. destruct (Hin Ha Hb) as (e1 & e2 & ? & _). eauto.
  - left. rewrite Hcs. by eexists.
  - right. by rewrite Hraise.
Qed.

(** X13.  [playfair_encrypt] returns a ciphertext or raises [ValueError]:
    no index runs out of range and the loop of [prepare_message] finishes,
    whatever the keyword, the message and the character database. *)
Theorem playfair_encrypt_only_ValueError {U : UnicodeData}
    (keyword message_text : str) :
  (∃ ciphertext, playfair_encrypt keyword message_text = Ok ciphertext)
  ∨ playfair_encrypt keyword message_text = Raise ValueError.
Proof. apply playfair_encrypt_only_ValueError_aux. Qed.



(** X15.  With a keyword [create_grid] accepts, [playfair_encrypt] returns
    the empty string exactly when no character of the upper-cased message
    is alphabetic. *)
Theorem playfair_encrypt_empty_ciphertext {U : UnicodeData}
    (keyword message_text : str) :
  filter (λ c, isalpha c) keyword ≠ [] →
  playfair_encrypt keyword message_text = Ok []
  ↔ Forall (λ ch, ¬ isalpha ch) (str_upper message_text).
Proof.
  intros Hk. rewrite <-clean_nil_iff. split.
  - intros (grid & cs & _ & _ & Hcs & Hlen & Hjoin)%playfair_encrypt_Ok_inv.
    apply pair_up_nil_iff. destruct Hcs as [|d e ds cs _ _]; [done|].
    apply Forall_cons in Hlen as [He _]. by destruct e.
  - intros Hclean.
    rewrite (playfair_encrypt_grid _ _ _ (create_grid_returns keyword Hk)).
    by rewrite Hclean.
Qed.

Lemma playfair_encrypt_empty_ciphertext_witness :
  playfair_encrypt (U := latin1) (py "key") (py "123 ?!") = Ok [].
Proof.
  apply (playfair_encrypt_empty_ciphertext (U := latin1)
           (py "key") (py "123 ?!")).
  - vm_compute. discriminate.
  - apply (bool_decide_unpack _). vm_compute. exact I.
Defined.

(** X16.  When [playfair_encrypt] returns a ciphertext, it has two letters
    per digraph of the message, and its letters at positions [2 i] and
    [2 i + 1] are [encrypt_pair] of digraph [i] alone: digraphs are
    encrypted independently and in order. *)
Theorem playfair_encrypt_digraphwise {U : UnicodeData}
    (keyword message_text ciphertext : str) :
  playfair_encrypt keyword message_text = Ok ciphertext →
  ∃ grid digraphs,
    create_grid keyword = Ok grid
    ∧ prepare_message message_text = Ok digraphs
    ∧ length ciphertext = 2 * length digraphs
    ∧ ∀ i digraph, digraphs !! i = Some digraph →
        encrypt_pair grid digraph
        = Ok (slice ciphertext (2 * i) (2 * i + 2)).
Proof.
  intros (grid & cs & Hgrid & _ & Hcs & Hlen & ->)%playfair_encrypt_Ok_inv.
  exists grid, (pair_up (clean message_text)).
  destruct (Forall2_length2_join _ _ _ Hcs Hlen) as [Hlength Hith].
  split_and!; [done|apply prepare_message_pair_up|done|].
  intros i digraph Hi. by destruct (Hith i digraph Hi) as (e & _ & -> & ->).
Qed.

Lemma playfair_encrypt_digraphwise_witness :
  ∃ grid digraphs,
    create_grid (U := latin1) (py "MONARCHY") = Ok grid
    ∧ prepare_message (U := latin1) (py "GAME") = Ok digraphs
    ∧ length (py "INCL") = 2 * length digraphs
    ∧ ∀ i digraph, digraphs !! i = Some digraph →
        encrypt_pair grid digraph = Ok (slice (py "INCL") (2 * i) (2 * i + 2)).
Proof.
  apply (playfair_encrypt_digraphwise (U := latin1)
           (py "MONARCHY") (py "GAME") (py "INCL")).
  reflexivity.
Defined.

(** X17.  Two messages that [playfair_encrypt] turns into the same
    ciphertext under the same keyword have the same digraphs: the
    ciphertext and the keyword determine the prepared message. *)
Theorem playfair_encrypt_same_ciphertext {U : UnicodeData}
    (keyword message1 message2 ciphertext : str) :
  playfair_encrypt keyword message1 = Ok ciphertext →
  playfair_encrypt keyword message2 = Ok ciphertext →
  prepare_message message1 = prepare_message message2.
Proof.
  intros (grid & cs1 & Hgrid & Hgrid25 & Hcs1 & Hlen1 & ->)%playfair_encrypt_Ok_inv
    (grid' & cs2 & Hgrid' & _ & Hcs2 & Hlen2 & Hjoin)%playfair_encrypt_Ok_inv.
  rewrite Hgrid in Hgrid'. injection Hgrid' as <-.
  apply mjoin_length2_inj in Hjoin as ->; [|done..].
  rewrite !prepare_message_pair_up. f_equal.
  pose proof (pair_up_pairs (clean message1)) as Hp1.
  pose proof (pair_up_pairs (clean message2)) as Hp2.
  revert Hcs2 Hp1 Hp2. generalize (pair_up (clean message2)).
  induction Hcs1 as [|d1 e ds1 cs He1 _ IH]; intros ds2 Hcs2 Hp1 Hp2.
  { by inv Hcs2. }
  inv Hcs2 as [|d2 ? ds2' ? He2 Hcs2'].
  apply Forall_cons in Hp1 as [(x & y & -> & _) Hp1].
  apply Forall_cons in Hp2 as [(x' & y' & -> & _) Hp2].
  apply Forall_cons in Hlen1 as [_ Hlen1].
  apply Forall_cons in Hlen2 as [_ Hlen2].
  destruct (encrypt_pair_inj grid x y x' y' e Hgrid25 He1 He2) as [-> ->].
  f_equal. by apply IH.
Qed.

Lemma playfair_encrypt_same_ciphertext_witness :
  prepare_message (U := latin1) (py "hello")
  = prepare_message (U := latin1) (py "HEL-LO").
Proof.
  apply (playfair_encrypt_same_ciphertext (U := latin1) (py "MONARCHY")
           (py "hello") (py "HEL-LO") (py "CFSUPM")).
  - reflexivity.
  - reflexivity.
Defined.

(** X18.  In a ciphertext [playfair_encrypt] returns, the two letters at
    positions [2 i] and [2 i + 1] are different: no ciphertext digraph is
    a doubled letter. *)
Theorem playfair_encrypt_no_doubled_letter {U : UnicodeData}
    (keyword message_text ciphertext : str) (i : nat) (a b : char) :
  playfair_encrypt keyword message_text = Ok ciphertext →
  ciphertext !! (2 * i) = Some a →
  ciphertext !! (2 * i + 1) = Some b →
  a ≠ b.
Proof.
  intros (grid & cs & Hgrid & Hgrid25 & Hcs & Hlen & ->)%playfair_encrypt_Ok_inv
    Ha Hb.
  destruct (Forall2_length2_join _ _ _ Hcs Hlen) as [Hlength Hith].
  assert (i < length (pair_up (clean message_text))) as Hi.
  { apply lookup_lt_Some in Ha. lia. }
  destruct (lookup_lt_is_Some_2 _ _ Hi) as [d Hd].
  destruct (Hith i d Hd) as (e & _ & He & Hslice).
  pose proof (pair_up_pairs (clean message_text)) as Hpairs.
  rewrite Forall_forall in Hpairs.
  destruct (Hpairs d (list_elem_of_lookup_2 _ _ _ Hd)) as (x & y & -> & Hxy).
  pose proof (encrypt_pair_Ok_length _ _ _ He) as Hlene.
  destruct e as [|e1 [|e2 [|? ?]]]; try done.
  assert (e1 = a ∧ e2 = b) as [<- <-].
  { unfold slice in Hslice.
    assert (take (2 * i + 2 - 2 * i) (drop (2 * i) (mjoin cs)) !! 0 = Some e1)
      as H0 by (by rewrite Hslice).
    assert (take (2 * i + 2 - 2 * i) (drop (2 * i) (mjoin cs)) !! 1 = Some e2)
      as H1 by (by rewrite Hslice).
    apply lookup_take_Some in H0 as [H0 _], H1 as [H1 _].
    rewrite lookup_drop in H0, H1. rewrite Nat.add_0_r in H0.
    split; congruence. }
  by eapply encrypt_pair_distinct.
Qed.

Lemma playfair_encrypt_no_doubled_letter_witness :
  ord "S" ≠ ord "U".
Proof.
  apply (playfair_encrypt_no_doubled_letter (U := latin1) (py "MONARCHY")
           (py "hello") (py "CFSUPM") 1 (ord "S") (ord "U")).
  - reflexivity.
  - reflexivity.
  - reflexivity.
Defined.

(** X19.  When [create_grid] returns a grid and a digraph of the message
    holds a letter that is not in the grid, [playfair_encrypt] raises
    [ValueError]. *)
Theorem playfair_encrypt_letter_outside_grid {U : UnicodeData}
    (keyword message_text : str) (grid : list (list char))
    (digraphs : list str) (digraph : str) (ch : char) :
  create_grid keyword = Ok grid →
  prepare_message message_text = Ok digraphs →
  digraph ∈ digraphs → ch ∈ digraph → ch ∉ mjoin grid →
  playfair_encrypt keyword message_text = Raise ValueError.
Proof.
  intros Hgrid Hprep Hdg Hch Hout.
  destruct (playfair_encrypt_only_ValueError_aux keyword message_text)
    as [[c Hc]|?]; [|done].
  apply playfair_encrypt_Ok_inv in Hc as (grid' & cs & Hgrid' & _ & Hcs & _).
  rewrite Hgrid in Hgrid'. injection Hgrid' as <-.
  rewrite prepare_message_pair_up in Hprep. injection Hprep as <-.
  apply list_elem_of_lookup_1 in Hdg as [i Hi].
  destruct (Forall2_lookup_l _ _ _ _ _ Hcs Hi) as (e & _ & He).
  apply encrypt_pair_Ok_inv in He
    as (x & y & p & q & _ & _ & Hx & Hy & Hp & Hq & _).
  pose proof (create_grid_grid25 _ _ Hgrid) as Hgrid25%grid25_grid5x5.
  pose proof (pair_up_pairs (clean message_text)) as Hpairs.
  rewrite Forall_forall in Hpairs.
  destruct (Hpairs digraph (list_elem_of_lookup_2 _ _ _ Hi))
    as (a & b & -> & _).
  injection Hx as <-. injection Hy as <-. destruct Hout.
  apply (elem_of_grid_find grid Hgrid25).
  apply elem_of_cons in Hch as [->|Hch%list_elem_of_singleton]; subst; eauto.
Qed.

Lemma playfair_encrypt_letter_outside_grid_witness :
  playfair_encrypt (U := latin1) (py "A") (py "caf" ++ [233%N])
  = Raise ValueError.
Proof.
  apply (playfair_encrypt_letter_outside_grid (U := latin1) (py "A")
           (py "caf" ++ [233%N])
           [py "ABCDE"; py "FGHIK"; py "LMNOP"; py "QRSTU"; py "VWXYZ"]
           [py "CA"; [ord "F"; 201%N]] [ord "F"; 201%N] 201%N).
  - reflexivity.
  - reflexivity.
  - apply (bool_decide_unpack _). vm_compute. exact I.
  - apply (bool_decide_unpack _). vm_compute. exact I.
  - apply (bool_decide_unpack _). vm_compute. exact I.
Defined.

(** ** The letter J *)

Lemma J_not_in_clean `{UnicodeData} (text : list N) : ord "J" ∉ clean text.
Proof. unfold clean. rewrite elem_of_replace. intros [[_ ?]|[? _]]; done. Qed.

Lemma encrypt_pair_Ok_in_grid (grid : list (list N)) (digraph e : list N) :
  grid5x5 grid → encrypt_pair grid digraph = Ok e →
  Forall (λ c, c ∈ mjoin grid) e.
Proof.
  intros Hshape
    (x & y & p & q & e1 & e2 & _ & _ & Hp & Hq & He1 & He2 & ->)
      %encrypt_pair_Ok_inv.
  apply find_coordinates_Ok in Hp as [Hp _], Hq as [Hq _].
  destruct (shift_range p q Hp Hq) as [[? ?]%elem_of_cells [? ?]%elem_of_cells].
  apply Forall_cons. split; [|apply Forall_singleton];
    apply (elem_of_grid_cell grid Hshape); eauto 10.
Qed.

(** X20.  The letter J occurs in no digraph [prepare_message] returns, in
    no grid [create_grid] returns and in no ciphertext [playfair_encrypt]
    returns; every letter of a ciphertext is a letter of the grid. *)
Theorem J_never_occurs {U : UnicodeData} (keyword message_text : str) :
  (∀ digraphs, prepare_message message_text = Ok digraphs →
     ord "J" ∉ mjoin digraphs)
  ∧ (∀ grid, create_grid keyword = Ok grid → ord "J" ∉ mjoin grid)
  ∧ (∀ grid ciphertext,
       create_grid keyword = Ok grid →
       playfair_encrypt keyword message_text = Ok ciphertext →
       Forall (λ c, c ∈ mjoin grid) ciphertext ∧ ord "J" ∉ ciphertext).
Proof.
  assert (∀ grid, create_grid keyword = Ok grid → ord "J" ∉ mjoin grid)
    as HJgrid.
  { intros grid Hgrid HJ.
    destruct (decide (filter (λ c, isalpha c) keyword = [])) as [Hk|Hk].
    { by rewrite create_grid_raises in Hgrid. }
    rewrite create_grid_returns in Hgrid by done. injection Hgrid as <-.
    change (ord "J" ∈ mjoin ((λ i, slice (grid_letters keyword) i (i + 5))
                               <$> [0; 5; 10; 15; 20])) in HJ.
    rewrite mjoin_slices, grid_letters_eq in HJ.
    eapply elem_of_sublist in HJ; [|apply sublist_take].
    apply elem_of_app in HJ as [HJ|HJ].
    - rewrite elem_of_first_occurrences in HJ.
      by apply (J_not_in_clean keyword).
    - apply list_elem_of_filter in HJ as [_ HJ].
      by apply elem_of_alphabet in HJ as [_ ?]. }
  split_and!; [|done|].
  - intros digraphs Hprep. rewrite prepare_message_pair_up in Hprep.
    injection Hprep as <-. intros (dg & HJ & Hdg)%list_elem_of_join.
    pose proof (pair_up_letters (clean message_text)) as Hletters.
    rewrite Forall_forall in Hletters. specialize (Hletters dg Hdg).
    rewrite Forall_forall in Hletters.
    destruct (Hletters _ HJ) as [Hin|[?|?]]; [|done..].
    by apply J_not_in_clean in Hin.
  - intros grid ciphertext Hgrid
      (grid' & cs & Hgrid' & Hgrid25 & Hcs & _ & ->)%playfair_encrypt_Ok_inv.
    rewrite Hgrid in Hgrid'. injection Hgrid' as <-.
    assert (Forall (λ c, c ∈ mjoin grid) (mjoin cs)) as Hin.
    { apply Forall_forall. intros c (e & Hc & He)%list_elem_of_join.
      apply list_elem_of_lookup_1 in He as [i Hi].
      destruct (Forall2_lookup_r _ _ _ _ _ Hcs Hi) as (d & _ & Hd).
      apply encrypt_pair_Ok_in_grid in Hd; [|by apply grid25_grid5x5].
      rewrite Forall_forall in Hd. by apply Hd. }
    split; [done|]. intros HJ. rewrite Forall_forall in Hin.
    by apply (HJgrid grid Hgrid), Hin.
Qed.
